(** * The Sumo Logic Docker logging driver: decode, batch, deliver

    A shallow embedding of the two Go sources of the driver,
    [src/driver.go] and the second source file (the one that batches by
    payload size and retries deliveries), and the properties of the
    pipeline: the record decoder, the batcher, the bounded batch queue,
    the sender and the registry of active loggers.

    Conventions.
    - A Go [int] is a 64-bit signed integer: a [Z] with the wrap-around
      written out by [GoInt.wrap] wherever the code adds.
    - A [[]byte] is a [list byte]; a Go [string] is a [string].
    - A goroutine is a function from the inputs it receives (bytes of the
      fifo, values and ticks of a [select], answers of the HTTP endpoint)
      to the trace of effects it performs, in program order.
    - A buffered channel is the list of values it holds, oldest first. *)

From Stdlib Require Import ZArith Lia Strings.Byte.
From stdpp Require Import base option list strings gmap.

Local Open Scope Z_scope.

(** ** Go integers *)

Module GoInt.

Definition bits : Z := 64.
Definition min_int : Z := - 2 ^ 63.
Definition max_int : Z := 2 ^ 63 - 1.
Definition max_int32 : Z := 2 ^ 31 - 1.

(** Two's complement wrap-around of an [int] result. *)
Definition wrap (z : Z) : Z := (z + 2 ^ 63) mod 2 ^ 64 - 2 ^ 63.

Definition add (a b : Z) : Z := wrap (a + b).

(** [len(s)] of a slice. *)
Definition len {A} (s : list A) : Z := Z.of_nat (length s).

End GoInt.

(** ** Errors *)

(** The [error] values the code tests or creates. [io_EOF] is the only one
    the decoder compares against. [Errorf] and [Wrapf] keep the format
    string and the arguments of [fmt.Errorf] and [errors.Wrapf] as they
    are written; [LibError] is an error made inside a library. *)
Inductive error : Type :=
  | io_EOF
  | io_ErrUnexpectedEOF
  | io_ErrShortBuffer
  | LibError (msg : string)
  | Errorf (format : string) (args : list fmt_arg)
  | Wrapf (cause : error) (format : string) (args : list fmt_arg)
with fmt_arg : Type :=
  | fmt_string (s : string)
  | fmt_int (z : Z)
  | fmt_bool (b : bool)
  | fmt_bytes (b : list byte)
  | fmt_duration (d : Z)
  | fmt_url (u : option string)
  | fmt_error (e : error).

Definition is_EOF (e : error) : bool :=
  match e with io_EOF => true | _ => false end.

(** ** Records *)

(** [logdriver.LogEntry], the decoded frame. *)
Record LogEntry : Type := mkLogEntry {
  Source : string;
  TimeNano : Z;
  Line : list byte;
  Partial : bool
}.

(** The zero value, which [var log logdriver.LogEntry] and [log.Reset()]
    both produce. *)
Definition LogEntry_zero : LogEntry :=
  {| Source := EmptyString; TimeNano := 0; Line := []; Partial := false |}.

(** [type sumoLog struct], the same in both sources. *)
Record sumoLog : Type := mkSumoLog {
  line : list byte;
  source : string;
  time : string;
  isPartial : bool
}.

Global Instance byte_eq_dec : EqDecision byte := Byte.byte_eq_dec.

Global Instance sumoLog_eq_dec : EqDecision sumoLog.
Proof. solve_decision. Defined.

(** ** What the code calls and does not define *)

(** Open files are named by a handle. *)
Definition file : Type := nat.

(** The functions of the Go libraries and of the host that the driver
    calls. They are parameters of the whole development: nothing below
    fixes what they compute, and a theorem that needs one of them to
    succeed says so in a hypothesis. *)
Class Runtime : Type := {
  (** [proto.Unmarshal(buf, msg)]: resets [msg], fills it from [buf], and
      may fail leaving it partly filled. *)
  proto_Unmarshal : list byte → LogEntry * option error;
  (** [time.Unix(0, n).String()]. *)
  time_Unix_String : Z → string;
  (** What a [gzip.Writer] of a valid level has written to the underlying
      writer once it is closed, as a function of all the bytes written
      to it. *)
  gzip_compress : Z → list byte → list byte;
  (** [url.Parse]. *)
  url_Parse : string → error + string;
  (** [strconv.ParseInt(s, 10, 32)]. *)
  strconv_ParseInt : string → error + Z;
  (** [strconv.ParseBool]. *)
  strconv_ParseBool : string → error + bool;
  (** [time.ParseDuration], in nanoseconds. *)
  time_ParseDuration : string → error + Z;
  (** [fifo.OpenFifo(ctx, path, O_RDONLY, fileMode)]. *)
  fifo_OpenFifo : string → error + file;
  (** [ioutil.ReadFile]. *)
  ioutil_ReadFile : string → error + list byte;
  (** The constant [pluginName], declared in a file that is not among the
      sources. *)
  pluginName : string
}.

(** What [logrus.Warn] and [logrus.Error] are given. *)
Inductive logrus_entry : Type :=
  | Warn (msg : string)
  | Error (err : error).

(** ** The record decoder

    [protoio.NewUint32DelimitedReader(r, binary.BigEndian, maxSize)] is
    the reader of gogo/protobuf's [io/uint32.go], which the second source
    links in a comment. It keeps no read-ahead: [ReadMsg] reads exactly the
    four bytes of the length and then the frame from [r], so a new reader
    on the same stream continues at the stream's position. The stream is
    the list of the bytes still to come before the writer closes the
    fifo. *)

Definition fileReaderMaxSize : Z := 1000000.

(** [io.ReadFull(r, buf)] with [len(buf) = n]: the bytes read, the error,
    and the rest of the stream. No byte at all is [io.EOF], too few is
    [io.ErrUnexpectedEOF]; an empty [buf] reads nothing and succeeds. *)
Definition io_ReadFull (n : nat) (r : list byte)
  : list byte * option error * list byte :=
  match n, r with
  | O, _ => ([], None, r)
  | _, [] => ([], Some io_EOF, [])
  | _, _ =>
      if decide (length r < n)%nat
      then (r, Some io_ErrUnexpectedEOF, [])
      else (take n r, None, drop n r)
  end.

(** [binary.BigEndian.Uint32]. *)
Definition BigEndian_Uint32 (b : list byte) : Z :=
  match b with
  | [b0; b1; b2; b3] =>
      Z.lor (Z.lor (Z.lor (Z.shiftl (Z.of_N (Byte.to_N b0)) 24)
                          (Z.shiftl (Z.of_N (Byte.to_N b1)) 16))
                   (Z.shiftl (Z.of_N (Byte.to_N b2)) 8))
            (Z.of_N (Byte.to_N b3))
  | _ => 0
  end.

Section Decoder.
Context `{Runtime}.

(** The reader's [ReadMsg(msg)]: the error, the rest of the stream
    and the message afterwards. The message is written by
    [proto.Unmarshal] only; every earlier failure leaves it as it
    was. *)
Definition ReadMsg (maxSize : Z) (r : list byte) (msg : LogEntry)
  : option error * list byte * LogEntry :=
  match io_ReadFull 4 r with
  | (_, Some err, r1) => (Some err, r1, msg)
  | (lenBuf, None, r1) =>
      let length := BigEndian_Uint32 lenBuf in
      if (length <? 0) || (maxSize <? length)
      then (Some io_ErrShortBuffer, r1, msg)
      else
        match io_ReadFull (Z.to_nat length) r1 with
        | (_, Some err, r2) => (Some err, r2, msg)
        | (buf, None, r2) =>
            let '(msg', err) := proto_Unmarshal buf in (err, r2, msg')
        end
  end.

(** What [consumeLogsFromFile] does, in order. [CloseReader] is the
    deferred [dec.Close()], which runs when the function returns. *)
Inductive decoder_effect : Type :=
  | LogrusError (err : error)
  | NewReader
  | SendLog (log : sumoLog)
  | CloseInputFile
  | CloseLogQueue
  | CloseReader.

(** The record the loop builds from the message buffer. *)
Definition sumoLog_of (log : LogEntry) : sumoLog :=
  {| line := Line log;
     source := Source log;
     time := time_Unix_String (TimeNano log);
     isPartial := Partial log |}.

(** The [for] loop of [consumeLogsFromFile], the same in both sources
    (the message buffer is [buf] in one and [log] in the other). One
    unit of fuel is one iteration; [None] is fuel run out.

    The error branch ends after the new reader is made: it has no
    [continue], so control falls through to the statements that build a
    record from the buffer and send it. *)
Fixpoint consumeLoop (fuel : nat) (r : list byte) (log : LogEntry)
  : option (list decoder_effect) :=
  match fuel with
  | O => None
  | S fuel' =>
      let '(err, r', log') := ReadMsg fileReaderMaxSize r log in
      match err with
      | Some e =>
          if is_EOF e
          then Some [CloseInputFile; CloseLogQueue; CloseReader]
          else
            rest ← consumeLoop fuel' r' LogEntry_zero;
            Some (LogrusError e :: NewReader :: SendLog (sumoLog_of log') :: rest)
      | None =>
          rest ← consumeLoop fuel' r' LogEntry_zero;
          Some (SendLog (sumoLog_of log') :: rest)
      end
  end.

(** Every iteration that does not end the loop takes at least one byte
    off the stream, so this fuel is enough ([consumeLogsFromFile_total]
    below). *)
Definition consumeLogsFromFile (inputFile : list byte)
  : option (list decoder_effect) :=
  consumeLoop (S (length inputFile)) inputFile LogEntry_zero.

(** The records put on the record queue. *)
Definition sent_logs (tr : list decoder_effect) : list sumoLog :=
  omap (λ e, match e with SendLog l => Some l | _ => None end) tr.

End Decoder.

(** ** Serialising a batch *)

Definition newline : byte := "010"%byte.

(** [writeMessage(writer, logs)], the same in both sources. The writer is
    the list of the bytes written to it so far. Both writers the code
    passes, a [bytes.Buffer] and a [gzip.Writer] on top of one, accept
    every [Write], so the error branch is never taken and the result is
    the writer alone. *)
Fixpoint writeMessage (writer : list byte) (logs : list sumoLog) : list byte :=
  match logs with
  | [] => writer
  | log :: logs' => writeMessage (writer ++ (line log ++ [newline])) logs'
  end.

(** The wire body in the words of the specification: every payload
    followed by one newline, in batch order. *)
Definition newline_terminated (logs : list sumoLog) : list byte :=
  concat (map (λ log, line log ++ [newline]) logs).

(** ** HTTP *)

Record request : Type := mkRequest {
  Method : string;
  URL : string;
  Header : list (string * string);
  Body : list byte
}.

(** What [httpClient.Do] returns: a transport error, or a response with
    its status code, its status line and what reading its body gives. *)
Inductive response : Type :=
  | DoError (err : error)
  | Response (StatusCode : Z) (Status : string) (body : error + list byte).

Definition http_StatusOK : Z := 200.

Section Http.
Context `{Runtime}.

(** [http.NewRequest(method, url, body)] for a valid method: it fails
    exactly when [url.Parse] does, and the new request has no header. *)
Definition http_NewRequest (method url : string) (body : list byte)
  : error + request :=
  match url_Parse url with
  | inl err => inl err
  | inr u => inr {| Method := method; URL := u; Header := []; Body := body |}
  end.

(** [request.Header.Add(key, value)]. *)
Definition Header_Add (key value : string) (req : request) : request :=
  {| Method := Method req; URL := URL req;
     Header := Header req ++ [(key, value)]; Body := Body req |}.

(** [fmt.Errorf] of the failure message of both senders. *)
Definition send_failure (status : string) (body : list byte) : error :=
  Errorf "%s: Failed to send event: %s - %s"
    [fmt_string pluginName; fmt_string status; fmt_bytes body].

End Http.

(** ** Channels

    A buffered channel of capacity [cap] is the list of the values it
    holds. The operations below are those of one goroutine while no other
    goroutine takes part: a [None] is an operation that cannot proceed,
    which is the [default] case of a [select] and a goroutine left waiting
    otherwise. *)

Definition chan_send {A} (cap : nat) (q : list A) (x : A) : option (list A) :=
  if decide (length q < cap)%nat then Some (q ++ [x]) else None.

Definition chan_recv {A} (q : list A) : option (A * list A) :=
  match q with
  | [] => None
  | x :: q' => Some (x, q')
  end.

(** ** The second source: batches by payload size, delivery with retry *)

Module Batching.

(** [5 * time.Second], in nanoseconds. *)
Definition retryInterval : Z := 5 * 1000000000.

Record sumoLogBatch : Type := mkBatch {
  logs : list sumoLog;
  sizeBytes : Z
}.

Definition NewSumoLogBatch : sumoLogBatch :=
  {| logs := []; sizeBytes := 0 |}.

Definition Reset (b : sumoLogBatch) : sumoLogBatch :=
  {| logs := []; sizeBytes := 0 |}.

(** The [sumoLogger] of this source. Its declaration is not in the
    file; these are the fields its methods read, the channels apart:
    [logBatchQueueCap] is the capacity [logBatchQueue] was made with. *)
Record sumoLogger : Type := mkLogger {
  httpSourceUrl : string;
  sendingInterval : Z;
  batchSize : Z;
  logBatchQueueCap : nat
}.

(** *** The batcher *)

(** The state of [batchLogs] and of the channel it fills. [handedOff]
    is a history, not a variable of the code: every value the batcher
    has sent on [logBatchQueue], in order. [logged] is what went to
    logrus. *)
Record batcher : Type := mkBatcher {
  logBatch : sumoLogBatch;
  logBatchQueue : list (list sumoLog);
  queueClosed : bool;
  handedOff : list (list sumoLog);
  logged : list logrus_entry
}.

Definition batcher_init : batcher :=
  {| logBatch := NewSumoLogBatch; logBatchQueue := []; queueClosed := false;
     handedOff := []; logged := [] |}.

Definition queue_full_error : error :=
  Errorf "log batch queue full, dropping oldest batch" [].

(** [pushBatchToQueue(logBatch)]. The first [select] case is the send
    that can proceed at once; [default] receives the oldest batch
    itself, logs, and sends. *)
Definition pushBatchToQueue (l : sumoLogger) (st : batcher) : option batcher :=
  match chan_send (logBatchQueueCap l) (logBatchQueue st) (logs (logBatch st)) with
  | Some q =>
      Some {| logBatch := Reset (logBatch st);
              logBatchQueue := q;
              queueClosed := queueClosed st;
              handedOff := handedOff st ++ [logs (logBatch st)];
              logged := logged st |}
  | None =>
      '(_, q1) ← chan_recv (logBatchQueue st);
      q2 ← chan_send (logBatchQueueCap l) q1 (logs (logBatch st));
      Some {| logBatch := Reset (logBatch st);
              logBatchQueue := q2;
              queueClosed := queueClosed st;
              handedOff := handedOff st ++ [logs (logBatch st)];
              logged := logged st ++ [Error queue_full_error] |}
  end.

(** What wakes the batcher's [select], and what the sender does to the
    channel in between: a record from the record queue, a tick of the
    ticker, or the sender receiving the oldest queued batch. A receive
    by the sender falls between two turns of the batcher's loop, never
    inside [pushBatchToQueue] ([Racing] below lets it); on an empty queue
    the sender waits and the queue stays as it is. *)
Inductive input : Type :=
  | Log (log : sumoLog)
  | Tick
  | SenderReceives.

Definition too_large_warning : string :=
  "Log is too large to batch, dropping log.".

Definition append_log (log : sumoLog) (st : batcher) : batcher :=
  {| logBatch :=
       {| logs := logs (logBatch st) ++ [log];
          sizeBytes := GoInt.add (sizeBytes (logBatch st)) (GoInt.len (line log)) |};
     logBatchQueue := logBatchQueue st;
     queueClosed := queueClosed st;
     handedOff := handedOff st;
     logged := logged st |}.

(** One turn of the [for]/[select] of [batchLogs] with the record queue
    open. *)
Definition batchStep (l : sumoLogger) (st : batcher) (i : input) : option batcher :=
  match i with
  | Log log =>
      if batchSize l <? GoInt.len (line log)
      then Some {| logBatch := logBatch st;
                   logBatchQueue := logBatchQueue st;
                   queueClosed := queueClosed st;
                   handedOff := handedOff st;
                   logged := logged st ++ [Warn too_large_warning] |}
      else
        st' ← (if batchSize l <? GoInt.add (sizeBytes (logBatch st)) (GoInt.len (line log))
               then pushBatchToQueue l st
               else Some st);
        Some (append_log log st')
  | Tick =>
      if 0 <? GoInt.len (logs (logBatch st))
      then pushBatchToQueue l st
      else Some st
  | SenderReceives =>
      Some {| logBatch := logBatch st;
              logBatchQueue := tail (logBatchQueue st);
              queueClosed := queueClosed st;
              handedOff := handedOff st;
              logged := logged st |}
  end.

Fixpoint batchLoop (l : sumoLogger) (ins : list input) (st : batcher)
  : option batcher :=
  match ins with
  | [] => Some st
  | i :: ins' => st' ← batchStep l st i; batchLoop l ins' st'
  end.

(** The record queue is closed: the pending batch is sent as it is, by
    a plain send and not by [pushBatchToQueue], and the batch queue is
    closed. *)
Definition batchClose (l : sumoLogger) (st : batcher) : option batcher :=
  q ← chan_send (logBatchQueueCap l) (logBatchQueue st) (logs (logBatch st));
  Some {| logBatch := logBatch st;
          logBatchQueue := q;
          queueClosed := true;
          handedOff := handedOff st ++ [logs (logBatch st)];
          logged := logged st |}.

(** [batchLogs()] on the inputs [ins] followed by the closing of the
    record queue. *)
Definition batchLogs (l : sumoLogger) (ins : list input) : option batcher :=
  st ← batchLoop l ins batcher_init; batchClose l st.

(** The records among the inputs, in arrival order. *)
Definition records (ins : list input) : list sumoLog :=
  omap (λ i, match i with Log log => Some log | _ => None end) ins.

(** The cumulative payload size of a batch. *)
Definition payload_size (b : list sumoLog) : Z :=
  foldr (λ log n, GoInt.len (line log) + n) 0 b.

(** Enqueueing the batches [bs] one after the other with nothing taken
    from the queue in between. *)
Fixpoint pushAll (l : sumoLogger) (bs : list sumoLogBatch) (st : batcher)
  : option batcher :=
  match bs with
  | [] => Some st
  | b :: bs' =>
      st' ← pushBatchToQueue l
             {| logBatch := b;
                logBatchQueue := logBatchQueue st;
                queueClosed := queueClosed st;
                handedOff := handedOff st;
                logged := logged st |};
      pushAll l bs' st'
  end.

(** The batches the batcher has handed off followed by the one it holds,
    which the closing of the record queue hands off as it is. *)
Definition batches_of (st : batcher) : list (list sumoLog) :=
  handedOff st ++ [logs (logBatch st)].

(** The warnings among what was logged. *)
Definition warnings (lg : list logrus_entry) : list string :=
  omap (λ e, match e with Warn msg => Some msg | _ => None end) lg.

(** The errors among what was logged. *)
Definition errors (lg : list logrus_entry) : list error :=
  omap (λ e, match e with Error err => Some err | _ => None end) lg.

(** The records the batcher keeps, and those it drops. *)
Definition fits (l : sumoLogger) (log : sumoLog) : Prop :=
  GoInt.len (line log) ≤ batchSize l.

Definition oversized (l : sumoLogger) (log : sumoLog) : Prop :=
  batchSize l < GoInt.len (line log).

Global Instance fits_dec l log : Decision (fits l log).
Proof. unfold fits. apply _. Defined.

Global Instance oversized_dec l log : Decision (oversized l log).
Proof. unfold oversized. apply _. Defined.

(** What one input adds to the batches and to the warnings. *)
Definition kept (l : sumoLogger) (i : input) : list sumoLog :=
  match i with
  | Log log => if decide (fits l log) then [log] else []
  | _ => []
  end.

Definition warned (l : sumoLogger) (i : input) : list string :=
  match i with
  | Log log => if decide (fits l log) then [] else [too_large_warning]
  | _ => []
  end.

(** [sizeBytes] is the payload size of the batch held, and every batch,
    handed off or held, is within the threshold. *)
Definition size_inv (l : sumoLogger) (st : batcher) : Prop :=
  sizeBytes (logBatch st) = payload_size (logs (logBatch st)) ∧
  Forall (λ b, payload_size b ≤ batchSize l) (batches_of st).

(** *** The sender *)

Inductive sender_effect : Type :=
  | HttpDo (req : request)
  | Sleep (d : Z).

(** The sole success: a response, with status 200. *)
Definition is_success (resp : response) : bool :=
  match resp with
  | DoError _ => false
  | Response StatusCode _ _ => bool_decide (StatusCode = http_StatusOK)
  end.

(** The request the specification describes for a batch, before any
    header: a POST of the newline-terminated payloads to the endpoint. *)
Definition post_of (u : string) (logBatch : list sumoLog) : request :=
  {| Method := "POST"; URL := u; Header := []; Body := newline_terminated logBatch |}.

(** The attempts on one batch in the words of the specification: the same
    request, the fixed delay after each failure. *)
Definition failed_attempts (n : nat) (req : request) : list sender_effect :=
  concat (replicate n [HttpDo req; Sleep retryInterval]).

Section Sender.
Context `{Runtime}.

(** [sendLogs(logs)] when the endpoint answers [resp] (not looked at
    when no request is made): the effects and the returned error. No
    header is added to the request and nothing compresses the
    body. *)
Definition sendLogs (l : sumoLogger) (logs : list sumoLog) (resp : response)
  : list sender_effect * option error :=
  let logsBatch := writeMessage [] logs in
  match http_NewRequest "POST" (httpSourceUrl l) logsBatch with
  | inl err => ([], Some err)
  | inr request =>
      match resp with
      | DoError err => ([HttpDo request], Some err)
      | Response StatusCode Status body =>
          if decide (StatusCode ≠ http_StatusOK)
          then match body with
               | inl err => ([HttpDo request], Some err)
               | inr b => ([HttpDo request], Some (send_failure Status b))
               end
          else ([HttpDo request], None)
      end
  end.

(** The inner [for] of [handleBatchedLogs]: the attempts on one batch.
    [resps] holds the endpoint's answer to each attempt to come; the
    loop has no other exit than a [nil] from [sendLogs], so when the
    answers run out it is still retrying, which the [None] tells. *)
Fixpoint retryLoop (l : sumoLogger) (logBatch : list sumoLog) (resps : list response)
  : list sender_effect * option (list response) :=
  match resps with
  | [] => ([], None)
  | resp :: resps' =>
      let '(eff, err) := sendLogs l logBatch resp in
      match err with
      | None => (eff, Some resps')
      | Some _ =>
          let '(eff', k) := retryLoop l logBatch resps' in
          (eff ++ Sleep retryInterval :: eff', k)
      end
  end.

(** [handleBatchedLogs()]: [queue] is what the sender receives from
    [logBatchQueue] until it is closed and drained. *)
Fixpoint handleBatchedLogs (l : sumoLogger) (queue : list (list sumoLog))
    (resps : list response) : list sender_effect :=
  match queue with
  | [] => []
  | logBatch :: queue' =>
      match retryLoop l logBatch resps with
      | (eff, Some resps') => eff ++ handleBatchedLogs l queue' resps'
      | (eff, None) => eff
      end
  end.

End Sender.

End Batching.

(** ** [src/driver.go]: the registry of loggers, delivery by record count *)

Module Driver.

Definition logOptUrl : string := "sumo-url".
Definition logOptGzipCompression : string := "sumo-compress".
Definition logOptGzipCompressionLevel : string := "sumo-compress-level".
Definition logOptProxyUrl : string := "sumo-proxy-url".
Definition logOptInsecureSkipVerify : string := "sumo-insecure-skip-verify".
Definition logOptRootCaPath : string := "sumo-root-ca-path".
Definition logOptServerName : string := "sumo-server-name".
Definition logOptSendingInterval : string := "sumo-sending-interval".
Definition logOptQueueSize : string := "sumo-queue-size".
Definition logOptBatchSize : string := "sumo-batch-size".

(** [gzip.DefaultCompression], [gzip.BestCompression] and
    [gzip.HuffmanOnly]. *)
Definition gzip_DefaultCompression : Z := -1.
Definition gzip_BestCompression : Z := 9.
Definition gzip_HuffmanOnly : Z := -2.

Definition defaultGzipCompression : bool := false.
Definition defaultGzipCompressionLevel : Z := gzip_DefaultCompression.
Definition defaultInsecureSkipVerify : bool := false.
Definition defaultSendingInterval : Z := 2 * 1000000000.
Definition defaultQueueSize : Z := 4000.
Definition defaultBatchSize : Z := 1000.

Record tls_Config : Type := mkTls {
  InsecureSkipVerify : bool;
  RootCAs : option (list byte);
  ServerName : string
}.

(** The [http.Client] the logger is given: its transport's proxy and
    TLS configuration. *)
Record http_Client : Type := mkClient {
  Proxy : option string;
  TLSClientConfig : tls_Config
}.

(** [type sumoLogger struct]; [logQueue] is the capacity the channel is
    made with. *)
Record sumoLogger : Type := mkLogger {
  httpSourceUrl : string;
  httpClient : http_Client;
  proxyUrl : option string;
  tlsConfig : tls_Config;
  gzipCompression : bool;
  gzipCompressionLevel : Z;
  inputQueueFile : file;
  logQueue : Z;
  sendingInterval : Z;
  batchSize : Z
}.

(** [type sumoDriver struct]. The mutex is not modelled: every method
    below runs alone. *)
Record sumoDriver : Type := mkDriver {
  loggers : gmap string sumoLogger
}.

Definition newSumoDriver : sumoDriver := {| loggers := ∅ |}.

(** [logger.Info], of which the driver reads [Config] only. *)
Record Info : Type := mkInfo {
  Config : gmap string string
}.

(** What the methods of the driver do to the world besides the
    registry. *)
Inductive driver_effect : Type :=
  | Logrus (e : logrus_entry)
  | CloseFile (f : file)
  | Go_consumeLogsFromFile (lg : sumoLogger)
  | Go_queueLogsForSending (lg : sumoLogger).

Inductive sender_effect : Type :=
  | HttpDo (req : request).

Section Methods.
Context `{Runtime}.

(** The four option parsers: the value and what was logged. The
    messages are the format strings of the source. *)
Definition parseLogOptInt (info : Info) (logOptKey : string) (defaultValue : Z)
  : Z * list driver_effect :=
  match Config info !! logOptKey with
  | Some input =>
      match strconv_ParseInt input with
      | inl err =>
          (defaultValue,
           [Logrus (Error (Errorf "Failed to parse value of %s as integer. Using default %d. %v"
                         [fmt_string logOptKey; fmt_int defaultValue; fmt_error err]))])
      | inr inputValue => (inputValue, [])
      end
  | None => (defaultValue, [])
  end.

Definition parseLogOptDuration (info : Info) (logOptKey : string) (defaultValue : Z)
  : Z * list driver_effect :=
  match Config info !! logOptKey with
  | Some input =>
      match time_ParseDuration input with
      | inl err =>
          (defaultValue,
           [Logrus (Error (Errorf "Failed to parse value of %s as duration. Using default %v. %v"
                         [fmt_string logOptKey; fmt_duration defaultValue; fmt_error err]))])
      | inr inputValue => (inputValue, [])
      end
  | None => (defaultValue, [])
  end.

Definition parseLogOptBoolean (info : Info) (logOptKey : string) (defaultValue : bool)
  : bool * list driver_effect :=
  match Config info !! logOptKey with
  | Some input =>
      match strconv_ParseBool input with
      | inl err =>
          (defaultValue,
           [Logrus (Error (Errorf "Failed to parse value of %s as boolean. Using default %t. %v"
                         [fmt_string logOptKey; fmt_bool defaultValue; fmt_error err]))])
      | inr inputValue => (inputValue, [])
      end
  | None => (defaultValue, [])
  end.

Definition parseLogOptProxyUrl (info : Info) (logOptKey : string)
    (defaultValue : option string) : option string * list driver_effect :=
  match Config info !! logOptKey with
  | Some input =>
      match url_Parse input with
      | inl err =>
          (defaultValue,
           [Logrus (Error (Errorf "Failed to parse value of %s as url. Initializing without proxy. %v"
                         [fmt_string logOptKey; fmt_url defaultValue; fmt_error err]))])
      | inr inputValue => (Some inputValue, [])
      end
  | None => (defaultValue, [])
  end.

(** [startLoggingInternal(file, info)]: the result, the driver
    afterwards and the effects. *)
Definition startLoggingInternal (drv : sumoDriver) (file : string) (info : Info)
  : (error + sumoLogger) * sumoDriver * list driver_effect :=
  match loggers drv !! file with
  | Some _ => (inl (Errorf "a logger for %q already exists" [fmt_string file]), drv, [])
  | None =>
      match fifo_OpenFifo file with
      | inl err =>
          (inl (Wrapf err "error opening logger fifo: %q" [fmt_string file]), drv, [])
      | inr inputQueueFile =>
          let '(gzipCompression, e1) :=
            parseLogOptBoolean info logOptGzipCompression defaultGzipCompression in
          let '(level0, e2) :=
            parseLogOptInt info logOptGzipCompressionLevel defaultGzipCompressionLevel in
          let '(gzipCompressionLevel, e3) :=
            if (level0 <? defaultGzipCompressionLevel) || (gzip_BestCompression <? level0)
            then (defaultGzipCompressionLevel,
                  [Logrus (Error (Errorf "Not supported level '%s' for %s (supported values between %d and %d). Using default compression."
                                [fmt_string (default EmptyString
                                               (Config info !! logOptGzipCompressionLevel));
                                 fmt_string logOptGzipCompressionLevel;
                                 fmt_int defaultGzipCompressionLevel;
                                 fmt_int gzip_BestCompression]))])
            else (level0, []) in
          let '(skipVerify, e4) :=
            parseLogOptBoolean info logOptInsecureSkipVerify defaultInsecureSkipVerify in
          let rootCa :=
            match Config info !! logOptRootCaPath with
            | Some rootCaPath =>
                match ioutil_ReadFile rootCaPath with
                | inl err => inl err
                | inr pem => inr (Some pem)
                end
            | None => inr None
            end in
          match rootCa with
          | inl err => (inl err, drv, e1 ++ e2 ++ e3 ++ e4)
          | inr rootCAs =>
              let tlsConfig :=
                {| InsecureSkipVerify := skipVerify;
                   RootCAs := rootCAs;
                   ServerName := default EmptyString (Config info !! logOptServerName) |} in
              let '(proxyUrl, e5) := parseLogOptProxyUrl info logOptProxyUrl None in
              let httpClient := {| Proxy := proxyUrl; TLSClientConfig := tlsConfig |} in
              let '(interval0, e6) :=
                parseLogOptDuration info logOptSendingInterval defaultSendingInterval in
              let '(sendingInterval, e7) :=
                if interval0 <=? 0
                then (defaultSendingInterval,
                      [Logrus (Error (Errorf "%s must be a positive duration, got %s. Using default %s."
                                    [fmt_string logOptSendingInterval;
                                     fmt_duration interval0;
                                     fmt_duration defaultSendingInterval]))])
                else (interval0, []) in
              let '(queue0, e8) := parseLogOptInt info logOptQueueSize defaultQueueSize in
              let '(queueSize, e9) :=
                if queue0 <=? 0
                then (defaultQueueSize,
                      [Logrus (Error (Errorf "%s must be a positive value, got %d. Using default %d."
                                        [fmt_string logOptQueueSize; fmt_int queue0;
                                         fmt_int defaultQueueSize]))])
                else (queue0, []) in
              let '(batch0, e10) := parseLogOptInt info logOptBatchSize defaultBatchSize in
              let '(batchSize, e11) :=
                if batch0 <=? 0
                then (defaultBatchSize,
                      [Logrus (Error (Errorf "%s must be a positive value, got %d. Using default %d."
                                        [fmt_string logOptBatchSize; fmt_int batch0;
                                         fmt_int defaultBatchSize]))])
                else (batch0, []) in
              let newSumoLogger :=
                {| httpSourceUrl := default EmptyString (Config info !! logOptUrl);
                   httpClient := httpClient;
                   proxyUrl := proxyUrl;
                   tlsConfig := tlsConfig;
                   gzipCompression := gzipCompression;
                   gzipCompressionLevel := gzipCompressionLevel;
                   inputQueueFile := inputQueueFile;
                   logQueue := queueSize;
                   sendingInterval := sendingInterval;
                   batchSize := batchSize |} in
              (inr newSumoLogger,
               {| loggers := <[file := newSumoLogger]> (loggers drv) |},
               e1 ++ e2 ++ e3 ++ e4 ++ e5 ++ e6 ++ e7 ++ e8 ++ e9 ++ e10 ++ e11)
          end
      end
  end.

(** [StartLogging(file, info)]: the returned error ([None] is [nil]),
    the driver afterwards and the effects, the two [go] statements
    among them. *)
Definition StartLogging (drv : sumoDriver) (file : string) (info : Info)
  : option error * sumoDriver * list driver_effect :=
  match startLoggingInternal drv file info with
  | (inl err, drv', eff) => (Some err, drv', eff)
  | (inr newSumoLogger, drv', eff) =>
      (None, drv',
       eff ++ [Go_consumeLogsFromFile newSumoLogger;
               Go_queueLogsForSending newSumoLogger])
  end.

(** [StopLogging(file)]. *)
Definition StopLogging (drv : sumoDriver) (file : string)
  : option error * sumoDriver * list driver_effect :=
  match loggers drv !! file with
  | Some sumoLogger =>
      (None,
       {| loggers := delete file (loggers drv) |},
       [CloseFile (inputQueueFile sumoLogger)])
  | None => (None, drv, [])
  end.

(** [writeMessageGzipCompression(writer, logs)]: [gzip.NewWriterLevel]
    refuses a level outside [HuffmanOnly .. BestCompression]; the
    compressed bytes reach [writer] by the time the gzip writer is
    closed. *)
Definition writeMessageGzipCompression (l : sumoLogger) (writer : list byte)
    (logs : list sumoLog) : error + list byte :=
  if (gzipCompressionLevel l <? gzip_HuffmanOnly)
     || (gzip_BestCompression <? gzipCompressionLevel l)
  then inl (LibError "gzip: invalid compression level")
  else inr (writer ++ gzip_compress (gzipCompressionLevel l) (writeMessage [] logs)).

(** [makePostRequest(logs)] when the endpoint answers [resp] (not
    looked at when no request is made). *)
Definition makePostRequest (l : sumoLogger) (logs : list sumoLog) (resp : response)
  : list sender_effect * option error :=
  if decide (GoInt.len logs = 0) then ([], None)
  else
    let logsBatch :=
      if gzipCompression l
      then writeMessageGzipCompression l [] logs
      else inr (writeMessage [] logs) in
    match logsBatch with
    | inl err => ([], Some err)
    | inr logsBatch =>
        match http_NewRequest "POST" (httpSourceUrl l) logsBatch with
        | inl err => ([], Some err)
        | inr request =>
            let request := Header_Add "Content-Type" "text/plain" request in
            let request :=
              if gzipCompression l
              then Header_Add "Content-Encoding" "gzip" request
              else request in
            match resp with
            | DoError err => ([HttpDo request], Some err)
            | Response StatusCode Status body =>
                if decide (StatusCode ≠ http_StatusOK)
                then match body with
                     | inl err => ([HttpDo request], Some err)
                     | inr b => ([HttpDo request], Some (send_failure Status b))
                     end
                else ([HttpDo request], None)
            end
        end
    end.

End Methods.

End Driver.

(** ** [src/driver.go]: the sending loop *)

Module DriverLoop.

(** How a call ends: it returns, it panics (a slice out of bounds, an
    integer division by zero), or its loop is still running when the fuel
    is spent. *)
Inductive outcome (A : Type) : Type :=
  | Done (a : A)
  | Panic
  | NoFuel.
Arguments Done {A} a.
Arguments Panic {A}.
Arguments NoFuel {A}.

(** [s[lo:hi]]. Go allows [hi] up to the capacity; the code only slices
    up to the length, which is what is checked here. *)
Definition slice {A} (s : list A) (lo hi : Z) : option (list A) :=
  if (0 <=? lo) && (lo <=? hi) && (hi <=? GoInt.len s)
  then Some (take (Z.to_nat (hi - lo)) (drop (Z.to_nat lo) s))
  else None.

(** One call of [makePostRequest] by [sendLogs]: the logs it was given,
    the requests it made and the error it returned, which [sendLogs]
    passes to [logrus.Error]. *)
Record call : Type := mkCall {
  chunk : list sumoLog;
  requests : list Driver.sender_effect;
  result : option error
}.

Section Loop.
Context `{Runtime}.

(** The [for] loop of [sendLogs(logs)] from index [i] on. [answers k] is
    the endpoint's answer to request number [k], counted over the life
    of the logger; [k] is the number of requests made so far. The result
    is the calls made, the returned [failedLogs] and the new count. *)
Fixpoint sendLogsFrom (fuel : nat) (l : Driver.sumoLogger) (answers : nat → response)
    (logs : list sumoLog) (i : Z) (k : nat)
  : outcome (list call * list sumoLog * nat) :=
  match fuel with
  | O => NoFuel
  | S fuel' =>
      let logsCount := GoInt.len logs in
      if i <? logsCount then
        let upperBound := GoInt.add i (Driver.batchSize l) in
        let upperBound := if logsCount <? upperBound then logsCount else upperBound in
        match slice logs i upperBound with
        | None => Panic
        | Some logsChunk =>
            let '(eff, err) := Driver.makePostRequest l logsChunk (answers k) in
            let k' := (k + length eff)%nat in
            match err with
            | Some e =>
                match slice logs i logsCount with
                | None => Panic
                | Some failedLogs =>
                    Done ([{| chunk := logsChunk; requests := eff; result := Some e |}],
                          failedLogs, k')
                end
            | None =>
                match sendLogsFrom fuel' l answers logs
                        (GoInt.add i (Driver.batchSize l)) k' with
                | Done (calls, failedLogs, k'') =>
                    Done ({| chunk := logsChunk; requests := eff; result := None |} :: calls,
                          failedLogs, k'')
                | Panic => Panic
                | NoFuel => NoFuel
                end
            end
        end
      else Done ([], [], k)
  end.

(** [sendLogs(logs)]. With a positive batch size each turn of the loop
    moves [i] forward by at least one, so this fuel is enough. *)
Definition sendLogs (l : Driver.sumoLogger) (answers : nat → response)
    (logs : list sumoLog) (k : nat) : outcome (list call * list sumoLog * nat) :=
  sendLogsFrom (S (length logs)) l answers logs 0 k.

(** What wakes the [select] of [queueLogsForSending] while the record
    queue is open. *)
Inductive input : Type :=
  | Tick
  | Log (log : sumoLog).

(** The variable [logs] of [queueLogsForSending], the number of requests
    made, and, as a history, the calls of [makePostRequest] so far. *)
Record state : Type := mkState {
  logs : list sumoLog;
  made : nat;
  calls : list call
}.

Definition state_init : state := {| logs := []; made := 0; calls := [] |}.

(** [logs = sumoLogger.sendLogs(logs)]. *)
Definition flush (l : Driver.sumoLogger) (answers : nat → response) (st : state)
  : outcome state :=
  match sendLogs l answers (logs st) (made st) with
  | Done (cs, failedLogs, k) =>
      Done {| logs := failedLogs; made := k; calls := calls st ++ cs |}
  | Panic => Panic
  | NoFuel => NoFuel
  end.

(** One turn of the loop with the record queue open. The remainder of a
    division by zero panics. *)
Definition queueStep (l : Driver.sumoLogger) (answers : nat → response) (st : state)
    (i : input) : outcome state :=
  match i with
  | Tick => flush l answers st
  | Log log =>
      let st' := {| logs := logs st ++ [log]; made := made st; calls := calls st |} in
      if Driver.batchSize l =? 0 then Panic
      else if Z.rem (GoInt.len (logs st')) (Driver.batchSize l) =? 0
           then flush l answers st'
           else Done st'
  end.

Fixpoint queueLoop (l : Driver.sumoLogger) (answers : nat → response)
    (ins : list input) (st : state) : outcome state :=
  match ins with
  | [] => Done st
  | i :: ins' =>
      match queueStep l answers st i with
      | Done st' => queueLoop l answers ins' st'
      | Panic => Panic
      | NoFuel => NoFuel
      end
  end.

(** [queueLogsForSending(sumoLogger)] on the inputs [ins] followed by the
    closing of the record queue: the last [sendLogs] is called for what
    it does, its result is not kept, and the function returns. The
    [logs] of the final state are the [failedLogs] of that last call. *)
Definition queueLogsForSending (l : Driver.sumoLogger) (answers : nat → response)
    (ins : list input) : outcome state :=
  match queueLoop l answers ins state_init with
  | Done st => flush l answers st
  | Panic => Panic
  | NoFuel => NoFuel
  end.

End Loop.

(** The records among the inputs, in arrival order. *)
Definition records (ins : list input) : list sumoLog :=
  omap (λ i, match i with Log log => Some log | Tick => None end) ins.

(** The logs of the calls that returned [nil], in the order of the
    calls. *)
Definition delivered (cs : list call) : list sumoLog :=
  concat (map (λ c, match result c with None => chunk c | Some _ => [] end) cs).

(** The records received so far are the logs delivered followed by the
    logs held, and every call had between one and [batchSize] logs. *)
Definition queue_state_inv (l : Driver.sumoLogger) (received : list sumoLog)
    (st : state) : Prop :=
  delivered (calls st) ++ logs st = received ∧
  Forall (λ c, chunk c ≠ [] ∧ GoInt.len (chunk c) ≤ Driver.batchSize l) (calls st).

End DriverLoop.

(** ** Streams of frames *)

(** A frame as it lies on the stream: the four bytes of its length
    prefix and its body. *)
Definition frame : Type := list byte * list byte.

Definition frame_bytes (f : frame) : list byte := f.1 ++ f.2.

Definition frames_bytes (fs : list frame) : list byte :=
  concat (map frame_bytes fs).

(** The prefix is four bytes and holds, big-endian, the length of the
    body, which is within the maximum frame size. *)
Definition well_framed (f : frame) : Prop :=
  length f.1 = 4%nat ∧
  BigEndian_Uint32 f.1 = GoInt.len f.2 ∧
  GoInt.len f.2 ≤ fileReaderMaxSize.

(** A stream cut inside a frame: after one to three bytes of a length
    prefix, or after some but not all the bytes of a body. *)
Definition cut_frame (tail : list byte) : Prop :=
  (0 < length tail < 4)%nat ∨
  ∃ lenBuf partial,
    tail = lenBuf ++ partial ∧ length lenBuf = 4%nat ∧
    BigEndian_Uint32 lenBuf ≤ fileReaderMaxSize ∧
    0 < GoInt.len partial < BigEndian_Uint32 lenBuf.

(** How [consumeLogsFromFile] ends. *)
Definition closing : list decoder_effect :=
  [CloseInputFile; CloseLogQueue; CloseReader].

(** What one iteration that does not end the loop does: after a failed
    read the error is logged and the reader renewed; in both cases one
    record is sent. *)
Definition turn (b : option error * sumoLog) : list decoder_effect :=
  match b.1 with
  | Some e => [LogrusError e; NewReader; SendLog b.2]
  | None => [SendLog b.2]
  end.

(** ** Shapes of batcher runs *)

(** Inputs that are a tick. *)
Definition is_tick (i : Batching.input) : bool :=
  match i with Batching.Tick => true | _ => false end.

(** The queue holds the newest hand-offs: it is the end of the history,
    within the capacity; the hand-offs before it were received by the
    sender, at most [received] of them, or dropped, and each drop logged
    one error. *)
Definition queue_inv (l : Batching.sumoLogger) (received : nat)
    (st : Batching.batcher) : Prop :=
  (length (Batching.logBatchQueue st) ≤ Batching.logBatchQueueCap l)%nat ∧
  ∃ gone, Batching.handedOff st = gone ++ Batching.logBatchQueue st ∧
    (length gone ≤ received + length (Batching.errors (Batching.logged st)))%nat ∧
    (received = 0%nat → length gone = length (Batching.errors (Batching.logged st))).

(** Batches filled as far as the threshold allows: each batch but the
    first starts with a record that did not fit into the batch before
    it. *)
Fixpoint tight (l : Batching.sumoLogger) (bs : list (list sumoLog)) : Prop :=
  match bs with
  | b :: ((b' :: _) as rest) =>
      (∃ log tl, b' = log :: tl ∧
         Batching.batchSize l < Batching.payload_size b + GoInt.len (line log))
      ∧ tight l rest
  | _ => True
  end.

(** ** The batcher with the sender beside it

    [Batching.pushBatchToQueue] runs its [default] branch in one piece.
    The sender is another goroutine, and [handleBatchedLogs] can receive
    from the batch queue at two more places: after the [select] has found
    the queue full and before the batcher's own receive, and after that
    receive, before the batcher's send. A [window] says how many batches
    the sender receives at each of the two places. On an empty queue the
    sender waits, so it receives no more than the queue holds. *)

Module Racing.

Record window : Type := mkWindow {
  before_receive : nat;
  before_send : nat
}.

(** The sender stays out of the [default] branch. *)
Definition quiet : window := {| before_receive := 0; before_send := 0 |}.

(** The queue after [k] receives by the sender. *)
Definition sender_receives {A} (k : nat) (q : list A) : list A := drop k q.

(** [pushBatchToQueue(logBatch)] with the sender at work in the [default]
    branch. The batcher's own receive on a queue the sender has emptied
    cannot proceed, and never will: no other goroutine sends on the batch
    queue. *)
Definition pushBatchToQueue (l : Batching.sumoLogger) (w : window)
    (st : Batching.batcher) : option Batching.batcher :=
  match chan_send (Batching.logBatchQueueCap l) (Batching.logBatchQueue st)
          (Batching.logs (Batching.logBatch st)) with
  | Some q =>
      Some {| Batching.logBatch := Batching.Reset (Batching.logBatch st);
              Batching.logBatchQueue := q;
              Batching.queueClosed := Batching.queueClosed st;
              Batching.handedOff :=
                Batching.handedOff st ++ [Batching.logs (Batching.logBatch st)];
              Batching.logged := Batching.logged st |}
  | None =>
      '(_, q1) ← chan_recv (sender_receives (before_receive w) (Batching.logBatchQueue st));
      q2 ← chan_send (Batching.logBatchQueueCap l) (sender_receives (before_send w) q1)
             (Batching.logs (Batching.logBatch st));
      Some {| Batching.logBatch := Batching.Reset (Batching.logBatch st);
              Batching.logBatchQueue := q2;
              Batching.queueClosed := Batching.queueClosed st;
              Batching.handedOff :=
                Batching.handedOff st ++ [Batching.logs (Batching.logBatch st)];
              Batching.logged :=
                Batching.logged st ++ [Error Batching.queue_full_error] |}
  end.

(** One turn of the loop of [batchLogs], as [Batching.batchStep], with
    the window of the push the turn may make. *)
Definition batchStep (l : Batching.sumoLogger) (st : Batching.batcher)
    (iw : Batching.input * window) : option Batching.batcher :=
  match iw.1 with
  | Batching.Log log =>
      if Batching.batchSize l <? GoInt.len (line log)
      then Some {| Batching.logBatch := Batching.logBatch st;
                   Batching.logBatchQueue := Batching.logBatchQueue st;
                   Batching.queueClosed := Batching.queueClosed st;
                   Batching.handedOff := Batching.handedOff st;
                   Batching.logged :=
                     Batching.logged st ++ [Warn Batching.too_large_warning] |}
      else
        st' ← (if Batching.batchSize l
                    <? GoInt.add (Batching.sizeBytes (Batching.logBatch st))
                         (GoInt.len (line log))
               then pushBatchToQueue l iw.2 st
               else Some st);
        Some (Batching.append_log log st')
  | Batching.Tick =>
      if 0 <? GoInt.len (Batching.logs (Batching.logBatch st))
      then pushBatchToQueue l iw.2 st
      else Some st
  | Batching.SenderReceives =>
      Some {| Batching.logBatch := Batching.logBatch st;
              Batching.logBatchQueue := tail (Batching.logBatchQueue st);
              Batching.queueClosed := Batching.queueClosed st;
              Batching.handedOff := Batching.handedOff st;
              Batching.logged := Batching.logged st |}
  end.

Fixpoint batchLoop (l : Batching.sumoLogger) (ins : list (Batching.input * window))
    (st : Batching.batcher) : option Batching.batcher :=
  match ins with
  | [] => Some st
  | iw :: ins' => st' ← batchStep l st iw; batchLoop l ins' st'
  end.

(** The receives the sender attempts during one turn, and during a run:
    one for a receive between two turns, those of the window
    otherwise. *)
Definition attempts (iw : Batching.input * window) : nat :=
  match iw.1 with
  | Batching.SenderReceives => 1
  | _ => before_receive iw.2 + before_send iw.2
  end.

Definition receives (ins : list (Batching.input * window)) : nat :=
  foldr (λ iw n, attempts iw + n)%nat 0%nat ins.

End Racing.

(** ** Effects of the driver's methods *)

(** An effect that is a line to logrus, as opposed to a closed file or a
    started goroutine. *)
Definition is_logrus (e : Driver.driver_effect) : bool :=
  match e with Driver.Logrus _ => true | _ => false end.

(** ** Sample inputs *)

(** A length prefix of 1,000,001, one more than [fileReaderMaxSize]. *)
Definition corrupt_length : list byte :=
  ["000"; "015"; "066"; "065"]%byte.

(** The protobuf encoding of a [LogEntry] whose line is [hi]: field 3,
    length-delimited, two bytes. *)
Definition hi_body : list byte := ["026"; "002"; "104"; "105"]%byte.

(** The frame of [hi_body]: its length, 4, then the body. *)
Definition hi_frame : list byte :=
  ["000"; "000"; "000"; "004"]%byte ++ hi_body.

Definition hi_entry : LogEntry :=
  {| Source := EmptyString; TimeNano := 0; Line := ["104"; "105"]%byte; Partial := false |}.

(** A runtime to run the definitions on the samples: it decodes
    [hi_body] and nothing else, compresses by the identity, and accepts
    every URL. *)
Definition sample_runtime : Runtime :=
  {| proto_Unmarshal := λ buf,
       if decide (buf = hi_body) then (hi_entry, None)
       else (LogEntry_zero, Some io_ErrUnexpectedEOF);
     time_Unix_String := λ _, "1970-01-01 00:00:00 +0000 UTC";
     gzip_compress := λ _ b, b;
     url_Parse := λ s, inr s;
     strconv_ParseInt := λ _, inl (LibError "invalid syntax");
     strconv_ParseBool := λ _, inl (LibError "invalid syntax");
     time_ParseDuration := λ _, inl (LibError "invalid duration");
     fifo_OpenFifo := λ _, inr 3%nat;
     ioutil_ReadFile := λ _, inl io_EOF;
     pluginName := "sumologic" |}.

(** The logger of the scenarios of the specification: a threshold of 250
    bytes and a batch queue of capacity 2. *)
Definition sample_logger : Batching.sumoLogger :=
  {| Batching.httpSourceUrl := "https://collectors.example/receiver";
     Batching.sendingInterval := 1000000000;
     Batching.batchSize := 250;
     Batching.logBatchQueueCap := 2 |}.

(** A record of [n] bytes [c]. *)
Definition record_of_size (n : nat) (c : byte) : sumoLog :=
  {| line := replicate n c; source := "stdout";
     time := "1970-01-01 00:00:00 +0000 UTC"; isPartial := false |}.

(** Three records of 100 bytes arriving together. *)
Definition three_records : list sumoLog :=
  [record_of_size 100 "a"; record_of_size 100 "b"; record_of_size 100 "c"]%byte.

(** The answers of the scenario of the specification: HTTP 500 twice,
    then 200. *)
Definition answer_500 : response :=
  Response 500 "500 Internal Server Error" (inr []).
Definition answer_200 : response := Response 200 "200 OK" (inr []).

(** A logger of [src/driver.go] with compression on at the default
    level. *)
Definition sample_driver_logger : Driver.sumoLogger :=
  {| Driver.httpSourceUrl := "https://collectors.example/receiver";
     Driver.httpClient :=
       {| Driver.Proxy := None;
          Driver.TLSClientConfig :=
            {| Driver.InsecureSkipVerify := false; Driver.RootCAs := None;
               Driver.ServerName := EmptyString |} |};
     Driver.proxyUrl := None;
     Driver.tlsConfig :=
       {| Driver.InsecureSkipVerify := false; Driver.RootCAs := None;
          Driver.ServerName := EmptyString |};
     Driver.gzipCompression := true;
     Driver.gzipCompressionLevel := -1;
     Driver.inputQueueFile := 3%nat;
     Driver.logQueue := 4000;
     Driver.sendingInterval := 2000000000;
     Driver.batchSize := 1000 |}.

(** A driver with one active logger. *)
Definition sample_driver : Driver.sumoDriver :=
  {| Driver.loggers := {[ "/run/docker/logging/1f3a" := sample_driver_logger ]} |}.

Definition sample_info : Driver.Info :=
  {| Driver.Config := {[ "sumo-url" := "https://collectors.example/receiver" ]} |}.

(** [sample_info] with a root CA file to read, which [sample_runtime]
    fails to read. *)
Definition sample_info_root_ca : Driver.Info :=
  {| Driver.Config :=
       {[ "sumo-url" := "https://collectors.example/receiver";
          "sumo-root-ca-path" := "/etc/ssl/certs/missing.pem" ]} |}.

(** A runtime like [sample_runtime] whose [url.Parse] refuses every
    URL. *)
Definition sample_runtime_bad_url : Runtime :=
  {| proto_Unmarshal := @proto_Unmarshal sample_runtime;
     time_Unix_String := @time_Unix_String sample_runtime;
     gzip_compress := @gzip_compress sample_runtime;
     url_Parse := λ _, inl (LibError "invalid URL escape");
     strconv_ParseInt := @strconv_ParseInt sample_runtime;
     strconv_ParseBool := @strconv_ParseBool sample_runtime;
     time_ParseDuration := @time_ParseDuration sample_runtime;
     fifo_OpenFifo := @fifo_OpenFifo sample_runtime;
     ioutil_ReadFile := @ioutil_ReadFile sample_runtime;
     pluginName := @pluginName sample_runtime |}.

(** [sample_driver_logger] with a batch size of zero, which
    [startLoggingInternal] never builds. *)
Definition zero_batch_logger : Driver.sumoLogger :=
  {| Driver.httpSourceUrl := Driver.httpSourceUrl sample_driver_logger;
     Driver.httpClient := Driver.httpClient sample_driver_logger;
     Driver.proxyUrl := None;
     Driver.tlsConfig := Driver.tlsConfig sample_driver_logger;
     Driver.gzipCompression := false;
     Driver.gzipCompressionLevel := -1;
     Driver.inputQueueFile := 3%nat;
     Driver.logQueue := 4000;
     Driver.sendingInterval := 2000000000;
     Driver.batchSize := 0 |}.

(** Four records of 200 bytes at the threshold of 250: each record after
    the first pushes the batch of the one before it. The third push
    finds the queue of capacity 2 full, and the sender receives [k]
    batches before the batcher's own receive. *)
Definition racing_run (k : nat) : list (Batching.input * Racing.window) :=
  [(Batching.Log (record_of_size 200 "a"), Racing.quiet);
   (Batching.Log (record_of_size 200 "b"), Racing.quiet);
   (Batching.Log (record_of_size 200 "c"), Racing.quiet);
   (Batching.Log (record_of_size 200 "d"),
    {| Racing.before_receive := k; Racing.before_send := 0 |})]%byte.

(** [sample_driver_logger] without compression and with a batch size of
    two records. *)
Definition two_record_logger : Driver.sumoLogger :=
  {| Driver.httpSourceUrl := Driver.httpSourceUrl sample_driver_logger;
     Driver.httpClient := Driver.httpClient sample_driver_logger;
     Driver.proxyUrl := None;
     Driver.tlsConfig := Driver.tlsConfig sample_driver_logger;
     Driver.gzipCompression := false;
     Driver.gzipCompressionLevel := -1;
     Driver.inputQueueFile := 3%nat;
     Driver.logQueue := 4000;
     Driver.sendingInterval := 2000000000;
     Driver.batchSize := 2 |}.

(** Three records of one byte in all: one byte, then two empty lines. *)
Definition one_byte_records : list sumoLog :=
  [record_of_size 1 "a"; record_of_size 0 "b"; record_of_size 0 "c"]%byte.

(** The logs of the calls of [makePostRequest] a run has made, call by
    call; nothing when the run did not return. *)
Definition chunks_of (r : DriverLoop.outcome DriverLoop.state) : list (list sumoLog) :=
  match r with
  | DriverLoop.Done st => map DriverLoop.chunk (DriverLoop.calls st)
  | _ => []
  end.

(** * Properties *)

(** ** Go integers *)

Lemma wrap_small (z : Z) :
  GoInt.min_int ≤ z ≤ GoInt.max_int → GoInt.wrap z = z.
Proof.
  unfold GoInt.wrap, GoInt.min_int, GoInt.max_int. intros Hz.
  rewrite Z.mod_small; lia.
Qed.

Lemma len_nonneg {A} (s : list A) : 0 ≤ GoInt.len s.
Proof. unfold GoInt.len. lia. Qed.

(** ** The record decoder *)

Section DecoderFacts.
Context `{Runtime}.

Lemma io_ReadFull_length (n : nat) (r : list byte) data err r' :
  io_ReadFull n r = (data, err, r') →
  (length r' ≤ length r)%nat ∧
  (err = None → (length r' + n = length r)%nat) ∧
  (err = Some io_EOF → r = []).
Proof.
  unfold io_ReadFull. destruct n as [|n].
  - intros [= <- <- <-]. split_and!; [lia | intros _; lia | done].
  - destruct r as [|b r].
    + intros [= <- <- <-]. split_and!; [simpl; lia | done | done].
    + case_decide as Hlt.
      * intros [= <- <- <-]. split_and!; [simpl; lia | done | done].
      * intros [= <- <- <-]. rewrite length_drop. simpl in *.
        split_and!; [lia | intros _; lia | done].
Qed.

(** A read on an empty stream is an end of stream; every other read
    moves the stream forward. *)
Lemma ReadMsg_progress (m : Z) (r : list byte) (msg : LogEntry) err r' msg' :
  ReadMsg m r msg = (err, r', msg') →
  (r = [] → err = Some io_EOF) ∧ (r ≠ [] → (length r' < length r)%nat).
Proof.
  unfold ReadMsg.
  destruct (io_ReadFull 4 r) as [[lenBuf e1] r1] eqn:E1.
  pose proof (io_ReadFull_length _ _ _ _ _ E1) as (Hle1 & Hok1 & Heof1).
  destruct e1 as [e1|].
  - intros [= <- <- <-]. split.
    + intros ->. simpl in E1. by inversion E1.
    + intros Hne. destruct r as [|b r]; [done|].
      simpl in E1. case_decide; inversion E1; subst; simpl; lia.
  - specialize (Hok1 eq_refl).
    assert (r ≠ [] ∧ (length r1 < length r)%nat) as [Hne Hlt].
    { split; [intros ->; simpl in *; lia | lia]. }
    destruct (_ || _).
    + intros [= <- <- <-]. split; [done | by intros _].
    + destruct (io_ReadFull _ r1) as [[buf e2] r2] eqn:E2.
      pose proof (io_ReadFull_length _ _ _ _ _ E2) as (Hle2 & _ & _).
      destruct e2 as [e2|].
      * intros [= <- <- <-]. split; [done | intros _; lia].
      * destruct (proto_Unmarshal buf) as [m' e3].
        intros [= <- <- <-]. split; [done | intros _; lia].
Qed.

Lemma consumeLoop_total (fuel : nat) (r : list byte) (log : LogEntry) :
  (length r < fuel)%nat → is_Some (consumeLoop fuel r log).
Proof.
  revert r log. induction fuel as [|fuel IH]; intros r log Hfuel; [lia|].
  simpl.
  destruct (ReadMsg fileReaderMaxSize r log) as [[err r'] log'] eqn:E.
  pose proof (ReadMsg_progress _ _ _ _ _ _ E) as [Hnil Hcons].
  destruct r as [|b r].
  - rewrite (Hnil eq_refl). simpl. eauto.
  - assert (length r' < fuel)%nat as Hr' by (specialize (Hcons ltac:(done)); simpl in *; lia).
    destruct (IH r' LogEntry_zero Hr') as [rest ->].
    destruct err as [e|]; [destruct (is_EOF e)|]; simpl; eauto.
Qed.

(** The decoder returns on every finite stream. *)
Lemma consumeLogsFromFile_total (inputFile : list byte) :
  is_Some (consumeLogsFromFile inputFile).
Proof. apply consumeLoop_total. lia. Qed.

(** Every failed read that is not the end of the stream is followed by
    a record on the record queue, built from whatever the message
    buffer holds. *)
Lemma consumeLoop_error_sends (fuel : nat) (r : list byte) (log : LogEntry)
    e r' log' tr :
  ReadMsg fileReaderMaxSize r log = (Some e, r', log') →
  is_EOF e = false →
  consumeLoop (S fuel) r log = Some tr →
  ∃ rest, tr = LogrusError e :: NewReader :: SendLog (sumoLog_of log') :: rest.
Proof.
  intros E He. simpl. rewrite E, He.
  destruct (consumeLoop fuel r' LogEntry_zero) as [rest|]; simpl; [|done].
  intros [= <-]. eauto.
Qed.

End DecoderFacts.

Section DecoderFrames.
Context `{Runtime}.

Lemma io_ReadFull_app (pre rest : list byte) :
  io_ReadFull (length pre) (pre ++ rest) = (pre, None, rest).
Proof.
  unfold io_ReadFull. destruct pre as [|b pre]; [done|].
  change (length (b :: pre)) with (S (length pre)).
  change ((b :: pre) ++ rest) with (b :: (pre ++ rest)).
  case_decide as Hlt.
  - simpl in Hlt. rewrite length_app in Hlt. lia.
  - change (b :: (pre ++ rest)) with ((b :: pre) ++ rest).
    change (S (length pre)) with (length (b :: pre)).
    by rewrite take_app_length, drop_app_length.
Qed.

(** A length above the maximum: the four bytes are consumed, the
    message is not touched. *)
Lemma ReadMsg_oversized (m : Z) (lenBuf rest : list byte) (msg : LogEntry) :
  length lenBuf = 4%nat →
  m < BigEndian_Uint32 lenBuf →
  ReadMsg m (lenBuf ++ rest) msg = (Some io_ErrShortBuffer, rest, msg).
Proof.
  intros Hlen Hbig. unfold ReadMsg.
  rewrite <- Hlen, io_ReadFull_app.
  replace (m <? BigEndian_Uint32 lenBuf) with true by (symmetry; apply Z.ltb_lt; lia).
  by rewrite orb_true_r.
Qed.

(** A well-formed frame: the message is what [proto.Unmarshal] makes of
    the body. *)
Lemma ReadMsg_frame (m : Z) (lenBuf body rest : list byte) (msg : LogEntry) :
  length lenBuf = 4%nat →
  BigEndian_Uint32 lenBuf = GoInt.len body →
  GoInt.len body ≤ m →
  ReadMsg m (lenBuf ++ body ++ rest) msg =
    (let '(msg', err) := proto_Unmarshal body in (err, rest, msg')).
Proof.
  intros Hlen Hval Hmax. unfold ReadMsg.
  rewrite <- Hlen, io_ReadFull_app, Hval.
  pose proof (len_nonneg body) as Hpos.
  replace (GoInt.len body <? 0) with false by (symmetry; apply Z.ltb_ge; lia).
  replace (m <? GoInt.len body) with false by (symmetry; apply Z.ltb_ge; lia).
  simpl. unfold GoInt.len. rewrite Nat2Z.id, io_ReadFull_app. done.
Qed.

Lemma consumeLoop_unfold (fuel : nat) (r : list byte) (log : LogEntry) :
  consumeLoop (S fuel) r log =
    let '(err, r', log') := ReadMsg fileReaderMaxSize r log in
    match err with
    | Some e =>
        if is_EOF e
        then Some [CloseInputFile; CloseLogQueue; CloseReader]
        else
          rest ← consumeLoop fuel r' LogEntry_zero;
          Some (LogrusError e :: NewReader :: SendLog (sumoLog_of log') :: rest)
    | None =>
        rest ← consumeLoop fuel r' LogEntry_zero;
        Some (SendLog (sumoLog_of log') :: rest)
    end.
Proof. reflexivity. Qed.

End DecoderFrames.

(** C1. A frame whose length prefix is corrupt (a length above the
    maximum frame size) followed by a valid frame and the end of the
    stream: the loop logs the error and makes a new reader on the stream,
    and then, the error branch having no [continue], sends a record built
    from the empty message buffer before it reads the valid frame. The
    record queue receives two records, the first of which no frame
    carried. *)
Theorem consumeLogsFromFile_sends_record_for_failed_read `{Runtime}
    (badLen okLen body : list byte) (entry : LogEntry) :
  length badLen = 4%nat →
  fileReaderMaxSize < BigEndian_Uint32 badLen →
  length okLen = 4%nat →
  BigEndian_Uint32 okLen = GoInt.len body →
  GoInt.len body ≤ fileReaderMaxSize →
  proto_Unmarshal body = (entry, None) →
  consumeLogsFromFile (badLen ++ okLen ++ body) =
    Some [LogrusError io_ErrShortBuffer; NewReader;
          SendLog (sumoLog_of LogEntry_zero);
          SendLog (sumoLog_of entry);
          CloseInputFile; CloseLogQueue; CloseReader].
Proof.
  intros Hbad Hbig Hok Hval Hmax Hvalid. unfold consumeLogsFromFile.
  rewrite !length_app, Hbad, Hok.
  change (S (4 + (4 + length body))) with (S (S (S (S (S (S (S (S (S (length body)))))))))).
  rewrite consumeLoop_unfold, ReadMsg_oversized by done. simpl is_EOF. cbv iota.
  rewrite consumeLoop_unfold.
  rewrite <- (app_nil_r body) at 1.
  rewrite ReadMsg_frame by done. rewrite Hvalid.
  rewrite consumeLoop_unfold. reflexivity.
Qed.

Lemma consumeLogsFromFile_sends_record_for_failed_read_witness :
  @proto_Unmarshal sample_runtime hi_body = (hi_entry, None) ∧
  sent_logs
    (default [] (@consumeLogsFromFile sample_runtime (corrupt_length ++ hi_frame))) =
    [ {| line := []; source := EmptyString;
         time := "1970-01-01 00:00:00 +0000 UTC"; isPartial := false |};
      {| line := ["104"; "105"]%byte; source := EmptyString;
         time := "1970-01-01 00:00:00 +0000 UTC"; isPartial := false |} ].
Proof.
  split; [reflexivity|].
  unfold hi_frame.
  rewrite (@consumeLogsFromFile_sends_record_for_failed_read sample_runtime
             corrupt_length ["000"; "000"; "000"; "004"]%byte hi_body hi_entry);
    [reflexivity | reflexivity | reflexivity | reflexivity | reflexivity
    | vm_compute; discriminate | reflexivity].
Defined.

(** ** The batch queue *)

Section QueueFacts.
Import Batching.

Lemma chan_send_room {A} (cap : nat) (q : list A) (x : A) :
  (length q < cap)%nat → chan_send cap q x = Some (q ++ [x]).
Proof. intros Hlt. unfold chan_send. by rewrite decide_True. Qed.

Lemma chan_send_full {A} (cap : nat) (q : list A) (x : A) :
  (cap ≤ length q)%nat → chan_send cap q x = None.
Proof. intros Hge. unfold chan_send. rewrite decide_False; [done | lia]. Qed.

(** With room, [pushBatchToQueue] appends and logs nothing. *)
Lemma pushBatchToQueue_room (l : sumoLogger) (st : batcher) :
  (length (logBatchQueue st) < logBatchQueueCap l)%nat →
  pushBatchToQueue l st =
    Some {| logBatch := NewSumoLogBatch;
            logBatchQueue := logBatchQueue st ++ [logs (logBatch st)];
            queueClosed := queueClosed st;
            handedOff := handedOff st ++ [logs (logBatch st)];
            logged := logged st |}.
Proof. intros Hlt. unfold pushBatchToQueue. by rewrite chan_send_room. Qed.

(** Full, it drops the head, logs the error and appends. *)
Lemma pushBatchToQueue_full (l : sumoLogger) (st : batcher) :
  (0 < logBatchQueueCap l)%nat →
  length (logBatchQueue st) = logBatchQueueCap l →
  pushBatchToQueue l st =
    Some {| logBatch := NewSumoLogBatch;
            logBatchQueue := tail (logBatchQueue st) ++ [logs (logBatch st)];
            queueClosed := queueClosed st;
            handedOff := handedOff st ++ [logs (logBatch st)];
            logged := logged st ++ [Error queue_full_error] |}.
Proof.
  intros Hcap Hfull. unfold pushBatchToQueue.
  rewrite chan_send_full by lia.
  destruct (logBatchQueue st) as [|old q] eqn:Hq; [simpl in Hfull; lia|].
  simpl in *. rewrite chan_send_room by lia. done.
Qed.

(** Either way the push goes through and the queue stays within its
    capacity. *)
Lemma pushBatchToQueue_ok (l : sumoLogger) (st : batcher) :
  (0 < logBatchQueueCap l)%nat →
  (length (logBatchQueue st) ≤ logBatchQueueCap l)%nat →
  ∃ st', pushBatchToQueue l st = Some st' ∧
    logBatch st' = NewSumoLogBatch ∧
    handedOff st' = handedOff st ++ [logs (logBatch st)] ∧
    queueClosed st' = queueClosed st ∧
    warnings (logged st') = warnings (logged st) ∧
    (length (logBatchQueue st') ≤ logBatchQueueCap l)%nat.
Proof.
  intros Hcap Hle.
  destruct (decide (length (logBatchQueue st) < logBatchQueueCap l)%nat) as [Hlt|Hge].
  - eexists. split; [by apply pushBatchToQueue_room|]. simpl.
    rewrite length_app. simpl. split_and!; [done..|lia].
  - eexists. split; [apply pushBatchToQueue_full; lia|]. simpl.
    rewrite length_app. simpl.
    unfold warnings. rewrite omap_app. simpl. rewrite app_nil_r.
    split_and!; [done..|].
    destruct (logBatchQueue st); simpl in *; lia.
Qed.

End QueueFacts.

Section QueueSequence.
Import Batching.

Lemma errors_app (a b : list logrus_entry) : errors (a ++ b) = errors a ++ errors b.
Proof. unfold errors. apply omap_app. Qed.

(** C4. Enqueues by [pushBatchToQueue] with nothing taken from the queue
    in between, from a queue within its capacity: every enqueue goes
    through, the queue stays within its capacity, and after the enqueues
    it holds the newest [cap] of the batches it held and was given, in
    their order. So an enqueue on a full queue removes the oldest batch
    and only that one, and each removal logs one error. *)
Theorem pushBatchToQueue_bounded_drop_oldest (l : sumoLogger)
    (bs : list sumoLogBatch) (st : batcher) :
  (0 < logBatchQueueCap l)%nat →
  (length (logBatchQueue st) ≤ logBatchQueueCap l)%nat →
  ∃ st', pushAll l bs st = Some st' ∧
    let all := logBatchQueue st ++ map logs bs in
    let dropped := (length all - logBatchQueueCap l)%nat in
    (length (logBatchQueue st') ≤ logBatchQueueCap l)%nat ∧
    logBatchQueue st' = drop dropped all ∧
    errors (logged st') = errors (logged st) ++ replicate dropped queue_full_error ∧
    handedOff st' = handedOff st ++ map logs bs.
Proof.
  intros Hcap. revert st. induction bs as [|b bs IH]; intros st Hle.
  - exists st. split; [done|]. simpl. rewrite !app_nil_r.
    replace (length (logBatchQueue st) - logBatchQueueCap l)%nat with 0%nat by lia.
    simpl. by rewrite app_nil_r.
  - simpl pushAll.
    set (st0 := {| logBatch := b; logBatchQueue := logBatchQueue st;
                   queueClosed := queueClosed st; handedOff := handedOff st;
                   logged := logged st |}).
    destruct (decide (length (logBatchQueue st) < logBatchQueueCap l)%nat) as [Hlt|Hge].
    + rewrite (pushBatchToQueue_room l st0) by done. simpl.
      match goal with |- ∃ st', pushAll l bs ?s = _ ∧ _ => destruct (IH s) as (st' & Hrun & Hlen & Hq & Herr & Hh) end.
      { simpl. rewrite length_app. simpl. lia. }
      exists st'. split; [done|]. simpl in *.
      rewrite <- !app_assoc in *. simpl in *. done.
    + assert (length (logBatchQueue st) = logBatchQueueCap l) as Hfull by lia.
      rewrite (pushBatchToQueue_full l st0) by done. simpl.
      destruct (logBatchQueue st) as [|old q] eqn:Hq0; [simpl in Hfull; lia|].
      match goal with |- ∃ st', pushAll l bs ?s = _ ∧ _ => destruct (IH s) as (st' & Hrun & Hlen & Hq & Herr & Hh) end.
      { simpl in *. rewrite length_app. simpl. lia. }
      exists st'. split; [done|]. simpl in *.
      rewrite <- !app_assoc in *. simpl in *.
      rewrite !length_app in *. simpl in *.
      replace (S (length q + S (length (map logs bs))) - logBatchQueueCap l)%nat
        with (S (length q + S (length (map logs bs)) - logBatchQueueCap l))%nat by lia.
      simpl. rewrite errors_app in Herr. simpl in Herr.
      rewrite <- app_assoc in Herr. simpl in Herr.
      split_and!; done.
Qed.

(** The scenario of the specification: capacity 2, three batches and no
    consumer leave the second and the third queued, one error logged. *)
Lemma pushBatchToQueue_bounded_drop_oldest_witness :
  let l := {| httpSourceUrl := "http://collector"; sendingInterval := 2000000000;
              batchSize := 250; logBatchQueueCap := 2 |} in
  let b (c : byte) := {| logs := [ {| line := [c]; source := "stdout";
                                      time := "t"; isPartial := false |} ];
                         sizeBytes := 1 |} in
  ∃ st', pushAll l [b "1"%byte; b "2"%byte; b "3"%byte] batcher_init = Some st' ∧
    logBatchQueue st' = [logs (b "2"%byte); logs (b "3"%byte)] ∧
    errors (logged st') = [queue_full_error].
Proof.
  intros l b.
  destruct (pushBatchToQueue_bounded_drop_oldest l
              [b "1"%byte; b "2"%byte; b "3"%byte] batcher_init)
    as (st' & Hrun & _ & Hq & Herr & _); [simpl; lia | simpl; lia |].
  exists st'. split_and!; [exact Hrun | exact Hq | exact Herr].
Defined.

End QueueSequence.

(** ** The batcher *)

Section BatcherFacts.
Import Batching.

Variable l : sumoLogger.

Local Abbreviation fits := (fits l).
Local Abbreviation oversized := (oversized l).
Local Abbreviation kept := (kept l).
Local Abbreviation warned := (warned l).
Local Abbreviation size_inv := (size_inv l).

Lemma concat_batches_of (st : batcher) :
  concat (batches_of st) = concat (handedOff st) ++ logs (logBatch st).
Proof. unfold batches_of. rewrite concat_app. simpl. by rewrite app_nil_r. Qed.

Lemma warnings_app (a b : list logrus_entry) :
  warnings (a ++ b) = warnings a ++ warnings b.
Proof. unfold warnings. apply omap_app. Qed.

Lemma pushBatchToQueue_inv (st st' : batcher) :
  pushBatchToQueue l st = Some st' →
  logBatch st' = NewSumoLogBatch ∧
  handedOff st' = handedOff st ++ [logs (logBatch st)].
Proof.
  unfold pushBatchToQueue.
  destruct (chan_send _ (logBatchQueue st) _) as [q|].
  - by intros [= <-].
  - destruct (chan_recv _) as [[old q1]|]; simpl; [|done].
    destruct (chan_send _ q1 _) as [q2|]; simpl; [|done].
    by intros [= <-].
Qed.

(** One turn of the loop goes through, keeps the queue within its
    capacity, and adds the record, if it fits, at the end of the
    batches. *)
Lemma batchStep_ok (st : batcher) (i : input) :
  (0 < logBatchQueueCap l)%nat →
  (length (logBatchQueue st) ≤ logBatchQueueCap l)%nat →
  ∃ st', batchStep l st i = Some st' ∧
    (length (logBatchQueue st') ≤ logBatchQueueCap l)%nat ∧
    queueClosed st' = queueClosed st ∧
    concat (batches_of st') = concat (batches_of st) ++ kept i ∧
    warnings (logged st') = warnings (logged st) ++ warned i.
Proof.
  intros Hcap Hle.
  destruct (pushBatchToQueue_ok l st Hcap Hle)
    as (stp & Hpush & Hb & Hh & Hc & Hw & Hlen).
  destruct i as [log| |]; simpl.
  - destruct (decide (fits log)) as [Hf|Hf]; unfold Batching.fits in Hf.
    + replace (batchSize l <? GoInt.len (line log)) with false
        by (symmetry; apply Z.ltb_ge; lia).
      rewrite app_nil_r.
      destruct (batchSize l <? GoInt.add _ _).
      * rewrite Hpush. simpl. eexists. split; [done|]. simpl.
        split_and!; [done..| |done].
        rewrite !concat_batches_of. simpl. rewrite Hb, Hh. simpl.
        rewrite concat_app. simpl. by rewrite app_nil_r.
      * simpl. eexists. split; [done|]. simpl.
        split_and!; [done..| |done].
        rewrite !concat_batches_of. simpl. by rewrite app_assoc.
    + replace (batchSize l <? GoInt.len (line log)) with true
        by (symmetry; apply Z.ltb_lt; lia).
      eexists. split; [done|]. simpl.
      rewrite warnings_app, app_nil_r. by split_and!.
  - rewrite !app_nil_r. destruct (0 <? _).
    + exists stp. split_and!; [done..| |done].
      rewrite !concat_batches_of, Hb, Hh. simpl.
      by rewrite concat_app, app_nil_r; simpl; rewrite !app_nil_r.
    + by exists st.
  - rewrite !app_nil_r. eexists. split; [done|]. simpl.
    split_and!; [|done..].
    destruct (logBatchQueue st); simpl in *; lia.
Qed.

(** The loop goes through on every input; the batches, handed off and
    held, are the records that fit, in arrival order, and every other
    record gave one warning. *)
Lemma batchLoop_ok (ins : list input) (st : batcher) :
  (0 < logBatchQueueCap l)%nat →
  (length (logBatchQueue st) ≤ logBatchQueueCap l)%nat →
  ∃ st', batchLoop l ins st = Some st' ∧
    (length (logBatchQueue st') ≤ logBatchQueueCap l)%nat ∧
    queueClosed st' = queueClosed st ∧
    concat (batches_of st') = concat (batches_of st) ++ filter fits (records ins) ∧
    warnings (logged st') =
      warnings (logged st)
      ++ replicate (length (filter oversized (records ins))) too_large_warning.
Proof.
  intros Hcap. revert st. induction ins as [|i ins IH]; intros st Hle.
  - exists st. simpl. by rewrite !app_nil_r.
  - destruct (batchStep_ok st i Hcap Hle) as (st1 & Hstep & Hle1 & Hc1 & Hb1 & Hw1).
    destruct (IH st1 Hle1) as (st2 & Hloop & Hle2 & Hc2 & Hb2 & Hw2).
    exists st2. simpl. rewrite Hstep. simpl.
    split_and!; [done | done | congruence | |].
    + rewrite Hb2, Hb1, <- app_assoc. f_equal.
      destruct i as [log| |]; simpl; [|done..].
      rewrite filter_cons. by destruct (decide _).
    + rewrite Hw2, Hw1, <- app_assoc. f_equal.
      destruct i as [log| |]; simpl; [|done..].
      rewrite filter_cons.
      unfold Batching.fits, Batching.oversized.
      destruct (decide (_ ≤ _)), (decide (_ < _)); simpl; [lia|done|done|lia].
Qed.

Lemma payload_size_app (a b : list sumoLog) :
  payload_size (a ++ b) = payload_size a + payload_size b.
Proof. induction a as [|x a IH]; simpl; [done|]. rewrite IH. lia. Qed.

Lemma payload_size_nonneg (b : list sumoLog) : 0 ≤ payload_size b.
Proof.
  induction b as [|x b IH]; simpl; [done|].
  pose proof (len_nonneg (line x)). lia.
Qed.

Lemma size_inv_init : 0 ≤ batchSize l → size_inv batcher_init.
Proof.
  intros Hb. split; [done|]. unfold batches_of. simpl.
  constructor; [simpl; lia | constructor].
Qed.

Lemma batchStep_size (st st' : batcher) (i : input) :
  0 ≤ batchSize l ≤ GoInt.max_int32 →
  size_inv st →
  batchStep l st i = Some st' →
  size_inv st'.
Proof.
  intros Hbs [Hsz Hall] Hstep. unfold batches_of in Hall.
  apply Forall_app in Hall as [Hhist Hcur].
  rewrite Forall_singleton in Hcur.
  pose proof (payload_size_nonneg (logs (logBatch st))) as Hnn.
  assert (∀ st1, pushBatchToQueue l st = Some st1 → size_inv st1) as Hpush.
  { intros st1 Hp. apply pushBatchToQueue_inv in Hp as [Hb Hh].
    split; [by rewrite Hb|]. unfold batches_of. rewrite Hb, Hh. simpl.
    rewrite !Forall_app, !Forall_singleton. simpl. split_and!; [done|done|lia]. }
  destruct i as [log| |]; simpl in Hstep.
  - pose proof (len_nonneg (line log)) as Hlen.
    destruct (batchSize l <? GoInt.len (line log)) eqn:Hbig.
    + injection Hstep as <-. split; [done|]. unfold batches_of. simpl.
      by rewrite Forall_app, Forall_singleton.
    + apply Z.ltb_ge in Hbig.
      assert (∀ s, 0 ≤ s ≤ batchSize l →
                GoInt.add s (GoInt.len (line log)) = s + GoInt.len (line log)) as Hadd.
      { intros s Hs. unfold GoInt.add. apply wrap_small.
        unfold GoInt.min_int, GoInt.max_int, GoInt.max_int32 in *. lia. }
      rewrite Hadd in Hstep by lia.
      destruct (batchSize l <? _) eqn:Hover.
      * destruct (pushBatchToQueue l st) as [st1|] eqn:Hp; simpl in Hstep; [|done].
        injection Hstep as <-.
        destruct (Hpush st1 eq_refl) as [Hsz1 Hall1].
        apply pushBatchToQueue_inv in Hp as [Hb Hh].
        unfold Batching.size_inv, append_log, batches_of in *. simpl.
        rewrite Hb in *. simpl in *.
        rewrite Hadd by lia.
        apply Forall_app in Hall1 as [Hhist1 _].
        split; [lia|]. rewrite Forall_app, Forall_singleton. simpl. split; [done|lia].
      * apply Z.ltb_ge in Hover. simpl in Hstep. injection Hstep as <-.
        unfold Batching.size_inv, append_log, batches_of. simpl.
        rewrite Hadd by lia.
        rewrite payload_size_app. simpl.
        split; [lia|]. rewrite Forall_app, Forall_singleton, payload_size_app. simpl.
        split; [done|lia].
  - destruct (0 <? _); [by apply Hpush|].
    injection Hstep as <-. split; [done|]. unfold batches_of.
    by rewrite Forall_app, Forall_singleton.
  - injection Hstep as <-. split; [done|]. unfold batches_of. simpl.
    by rewrite Forall_app, Forall_singleton.
Qed.

Lemma batchLoop_size (ins : list input) (st st' : batcher) :
  0 ≤ batchSize l ≤ GoInt.max_int32 →
  size_inv st →
  batchLoop l ins st = Some st' →
  size_inv st'.
Proof.
  intros Hbs. revert st. induction ins as [|i ins IH]; intros st Hinv; simpl.
  - by intros [= <-].
  - destruct (batchStep l st i) as [st1|] eqn:Hstep; simpl; [|done].
    intros Hloop. eapply IH; [|done]. by eapply batchStep_size.
Qed.


End BatcherFacts.

Section BatcherRuns.
Import Batching.


Lemma batchLoop_app (l : sumoLogger) (a b : list input) (st : batcher) :
  batchLoop l (a ++ b) st = batchLoop l a st ≫= batchLoop l b.
Proof.
  revert st. induction a as [|i a IH]; intros st; simpl; [done|].
  destruct (batchStep l st i) as [st1|]; simpl; [apply IH | done].
Qed.

(** Records that together stay within the threshold are all appended to
    the batch held, and nothing else happens. *)
Lemma batchLoop_under_threshold (l : sumoLogger) (rs : list sumoLog) (st : batcher) :
  batchSize l ≤ GoInt.max_int32 →
  sizeBytes (logBatch st) = payload_size (logs (logBatch st)) →
  payload_size (logs (logBatch st) ++ rs) ≤ batchSize l →
  batchLoop l (map Log rs) st =
    Some {| logBatch := {| logs := logs (logBatch st) ++ rs;
                           sizeBytes := payload_size (logs (logBatch st) ++ rs) |};
            logBatchQueue := logBatchQueue st;
            queueClosed := queueClosed st;
            handedOff := handedOff st;
            logged := logged st |}.
Proof.
  intros Hmax. revert st. induction rs as [|r rs IH]; intros st Hsz Hsum.
  - simpl. destruct st as [[lg sz] q c h e]. simpl in *.
    by rewrite app_nil_r, Hsz.
  - simpl.
    pose proof (payload_size_nonneg (logs (logBatch st))) as Hnn.
    pose proof (payload_size_nonneg rs) as Hnn'.
    pose proof (len_nonneg (line r)) as Hlen.
    rewrite payload_size_app in Hsum. simpl in Hsum.
    replace (batchSize l <? GoInt.len (line r)) with false
      by (symmetry; apply Z.ltb_ge; lia).
    assert (GoInt.add (sizeBytes (logBatch st)) (GoInt.len (line r))
            = sizeBytes (logBatch st) + GoInt.len (line r)) as Hadd.
    { unfold GoInt.add. apply wrap_small.
      unfold GoInt.min_int, GoInt.max_int, GoInt.max_int32 in *. lia. }
    rewrite Hadd.
    replace (batchSize l <? sizeBytes (logBatch st) + GoInt.len (line r)) with false
      by (symmetry; apply Z.ltb_ge; lia).
    simpl. rewrite IH.
    + unfold append_log. simpl. rewrite <- !app_assoc. done.
    + unfold append_log. simpl. rewrite Hadd, payload_size_app. simpl. lia.
    + unfold append_log. simpl. rewrite <- app_assoc, payload_size_app. simpl. lia.
Qed.

End BatcherRuns.

Section BatcherClaims.
Import Batching.




Example three_records_two_batches :
  handedOff <$> batchLogs sample_logger (map Log three_records) =
    Some [[record_of_size 100 "a"; record_of_size 100 "b"]%byte;
          [record_of_size 100 "c"]%byte].
Proof. vm_compute. reflexivity. Qed.



End BatcherClaims.

Section FlushFacts.
Import Batching.

(** The batcher of the second source, which counts bytes. A non-empty
    sequence of records whose cumulative payload size stays within the
    threshold, then one flush. By the ticker: one batch is handed off,
    holding all the records in arrival order, and the batcher holds an
    empty batch again. By the closing of the record queue: the same one
    batch is handed off, and the batch queue is closed. Nothing is logged
    in either case. *)
Lemma batchLogs_flush_within_threshold (l : sumoLogger) (rs : list sumoLog) :
  (0 < logBatchQueueCap l)%nat →
  batchSize l ≤ GoInt.max_int32 →
  rs ≠ [] →
  payload_size rs ≤ batchSize l →
  batchLoop l (map Log rs ++ [Tick]) batcher_init =
    Some {| logBatch := NewSumoLogBatch;
            logBatchQueue := [rs];
            queueClosed := false;
            handedOff := [rs];
            logged := [] |}
  ∧
  batchLogs l (map Log rs) =
    Some {| logBatch := {| logs := rs; sizeBytes := payload_size rs |};
            logBatchQueue := [rs];
            queueClosed := true;
            handedOff := [rs];
            logged := [] |}.
Proof.
  intros Hcap Hmax Hne Hsum.
  pose proof (batchLoop_under_threshold l rs batcher_init Hmax eq_refl Hsum) as Hrun.
  simpl in Hrun. split.
  - rewrite batchLoop_app, Hrun. simpl.
    replace (0 <? GoInt.len rs) with true.
    + by rewrite pushBatchToQueue_room.
    + symmetry. apply Z.ltb_lt. unfold GoInt.len. destruct rs; [done | simpl; lia].
  - unfold batchLogs. rewrite Hrun. simpl.
    unfold batchClose. simpl. by rewrite chan_send_room.
Qed.

End FlushFacts.

(** ** The sender *)

Lemma writeMessage_spec (writer : list byte) (logs : list sumoLog) :
  writeMessage writer logs = writer ++ newline_terminated logs.
Proof.
  revert writer. induction logs as [|log logs IH]; intros writer; simpl.
  - by rewrite app_nil_r.
  - rewrite IH. unfold newline_terminated. simpl. by rewrite <- !app_assoc.
Qed.

Section SenderFacts.
Context `{Runtime}.
Import Batching.

Variable l : sumoLogger.
Variable u : string.
Hypothesis url_ok : url_Parse (httpSourceUrl l) = inr u.

(** Every attempt makes the same request, whatever the answer. *)
Lemma sendLogs_request (logBatch : list sumoLog) (resp : response) :
  (sendLogs l logBatch resp).1 = [HttpDo (post_of u logBatch)].
Proof.
  unfold sendLogs, http_NewRequest. rewrite url_ok, writeMessage_spec. simpl.
  destruct resp as [e|code status [e|b]]; simpl; [done|..]; by case_decide.
Qed.

(** [sendLogs] returns [nil] on a response of status 200 and an error on
    everything else. *)
Lemma sendLogs_result (logBatch : list sumoLog) (resp : response) :
  is_Some (sendLogs l logBatch resp).2 ↔ is_success resp = false.
Proof.
  unfold sendLogs, http_NewRequest. rewrite url_ok. simpl.
  destruct resp as [e|code status [e|b]]; simpl.
  - split; [done | eauto].
  - case_decide as Hc; simpl.
    + rewrite bool_decide_eq_false. split; [done | eauto].
    + rewrite bool_decide_eq_false. split; [by intros [? ?] | done].
  - case_decide as Hc; simpl.
    + rewrite bool_decide_eq_false. split; [done | eauto].
    + rewrite bool_decide_eq_false. split; [by intros [? ?] | done].
Qed.

Lemma sendLogs_success (logBatch : list sumoLog) (resp : response) :
  is_success resp = true →
  sendLogs l logBatch resp = ([HttpDo (post_of u logBatch)], None).
Proof.
  intros Hok. pose proof (sendLogs_request logBatch resp) as Hreq.
  pose proof (sendLogs_result logBatch resp) as Hres.
  destruct (sendLogs l logBatch resp) as [eff [e|]]; simpl in *.
  - destruct Hres as [Hres _]. rewrite Hres in Hok; [done | eauto].
  - by rewrite Hreq.
Qed.

Lemma sendLogs_failure (logBatch : list sumoLog) (resp : response) :
  is_success resp = false →
  ∃ err, sendLogs l logBatch resp = ([HttpDo (post_of u logBatch)], Some err).
Proof.
  intros Hko. pose proof (sendLogs_request logBatch resp) as Hreq.
  pose proof (sendLogs_result logBatch resp) as Hres.
  destruct (sendLogs l logBatch resp) as [eff [e|]]; simpl in *.
  - exists e. by rewrite Hreq.
  - destruct Hres as [_ Hres]. by destruct (Hres Hko).
Qed.

(** While the answers are failures the loop repeats the request and
    sleeps, and is still retrying when they run out. *)
Lemma retryLoop_failures (logBatch : list sumoLog) (fails : list response) :
  Forall (λ r, is_success r = false) fails →
  retryLoop l logBatch fails =
    (failed_attempts (length fails) (post_of u logBatch), None).
Proof.
  induction 1 as [|r fails Hr _ IH]; [done|]. simpl.
  destruct (sendLogs_failure logBatch r Hr) as [e ->]. by rewrite IH.
Qed.

(** The first success ends the loop, the answers after it untouched. *)
Lemma retryLoop_until_success (logBatch : list sumoLog)
    (fails : list response) (ok : response) (rest : list response) :
  Forall (λ r, is_success r = false) fails →
  is_success ok = true →
  retryLoop l logBatch (fails ++ ok :: rest) =
    (failed_attempts (length fails) (post_of u logBatch)
       ++ [HttpDo (post_of u logBatch)], Some rest).
Proof.
  intros Hfails Hok. induction Hfails as [|r fails Hr _ IH]; simpl.
  - by rewrite sendLogs_success.
  - destruct (sendLogs_failure logBatch r Hr) as [e ->]. by rewrite IH.
Qed.

End SenderFacts.

(** C2. The configured URL being one that [url.Parse] accepts, the sender
    on a dequeued batch: while the answers are transport errors or statuses
    other than 200 it POSTs the same request, whose body is the batch's
    payloads each followed by a newline, and sleeps [retryInterval] after
    each failure, for any number of failures; the first answer with
    status 200 ends the attempts and only then is the next batch of the
    queue taken; and with failures only, no other batch is ever
    sent. Every request of the batch carries each of its records once. *)
Theorem handleBatchedLogs_retries_same_batch `{Runtime} (l : Batching.sumoLogger)
    (u : string) (logBatch : list sumoLog) (queue : list (list sumoLog))
    (fails : list response) (ok : response) (rest : list response) :
  url_Parse (Batching.httpSourceUrl l) = inr u →
  Forall (λ r, Batching.is_success r = false) fails →
  Batching.is_success ok = true →
  Batching.handleBatchedLogs l (logBatch :: queue) (fails ++ ok :: rest) =
    Batching.failed_attempts (length fails) (Batching.post_of u logBatch)
      ++ [Batching.HttpDo (Batching.post_of u logBatch)]
      ++ Batching.handleBatchedLogs l queue rest
  ∧
  Batching.handleBatchedLogs l (logBatch :: queue) fails =
    Batching.failed_attempts (length fails) (Batching.post_of u logBatch).
Proof.
  intros Hurl Hfails Hok. split; simpl.
  - rewrite (retryLoop_until_success l u Hurl) by done. by rewrite <- app_assoc.
  - by rewrite (retryLoop_failures l u Hurl).
Qed.

(** The scenario of the specification: HTTP 500 twice, then 200, gives
    three POSTs of the same body with the retry delay in between. *)
Lemma handleBatchedLogs_retries_same_batch_witness :
  let post := Batching.HttpDo
                {| Method := "POST"; URL := "https://collectors.example/receiver";
                   Header := []; Body := ["h"; "h"; "010"]%byte |} in
  @Batching.handleBatchedLogs sample_runtime sample_logger
      [[record_of_size 2 "h"%byte]; []] [answer_500; answer_500; answer_200]
    = [post; Batching.Sleep 5000000000; post; Batching.Sleep 5000000000; post]
      ++ @Batching.handleBatchedLogs sample_runtime sample_logger [[]] [].
Proof.
  intros post.
  destruct (@handleBatchedLogs_retries_same_batch sample_runtime sample_logger
              "https://collectors.example/receiver"
              [record_of_size 2 "h"%byte] [[]] [answer_500; answer_500] answer_200 [])
    as [Hrun _].
  - reflexivity.
  - repeat constructor.
  - reflexivity.
  - exact Hrun.
Defined.

(** ** The two senders side by side *)

Section MakePostRequest.
Context `{Runtime}.

(** The request of [makePostRequest] of [src/driver.go] for a batch that
    is not empty: the body compressed when compression is on, the content
    type always, the content encoding with compression. *)
Lemma makePostRequest_request (l : Driver.sumoLogger) (u : string)
    (logs : list sumoLog) (resp : response) :
  url_Parse (Driver.httpSourceUrl l) = inr u →
  Driver.gzip_HuffmanOnly ≤ Driver.gzipCompressionLevel l ≤ Driver.gzip_BestCompression →
  logs ≠ [] →
  (Driver.makePostRequest l logs resp).1 =
    [Driver.HttpDo
       {| Method := "POST"; URL := u;
          Header :=
            ("Content-Type", "text/plain")
            :: (if Driver.gzipCompression l then [("Content-Encoding", "gzip")] else []);
          Body :=
            if Driver.gzipCompression l
            then gzip_compress (Driver.gzipCompressionLevel l) (newline_terminated logs)
            else newline_terminated logs |}].
Proof.
  intros Hurl Hlevel Hne. unfold Driver.makePostRequest.
  rewrite decide_False by (destruct logs; [done | unfold GoInt.len; simpl; lia]).
  unfold Driver.writeMessageGzipCompression.
  replace (Driver.gzipCompressionLevel l <? Driver.gzip_HuffmanOnly) with false
    by (symmetry; apply Z.ltb_ge; lia).
  replace (Driver.gzip_BestCompression <? Driver.gzipCompressionLevel l) with false
    by (symmetry; apply Z.ltb_ge; lia).
  simpl. rewrite !writeMessage_spec. simpl.
  unfold http_NewRequest. rewrite Hurl.
  destruct (Driver.gzipCompression l); simpl;
    destruct resp as [e|code status [e|b]]; simpl; try case_decide; done.
Qed.

(** No logs, no request, and [nil]. *)
Lemma makePostRequest_no_logs (l : Driver.sumoLogger) (resp : response) :
  Driver.makePostRequest l [] resp = ([], None).
Proof. reflexivity. Qed.

End MakePostRequest.

(** C7. A batch that is not empty. [makePostRequest] of [src/driver.go]
    POSTs the payloads each followed by a newline, gzip-compressed when
    compression is on, with the header [Content-Type: text/plain] and,
    with compression, [Content-Encoding: gzip]. [sendLogs] of the second
    source, the sender that retries, POSTs the same payloads with no
    header at all and never compressed. *)
Theorem sendLogs_request_lacks_headers `{Runtime}
    (ld : Driver.sumoLogger) (lb : Batching.sumoLogger) (u : string)
    (logs : list sumoLog) (resp : response) :
  url_Parse (Driver.httpSourceUrl ld) = inr u →
  Batching.httpSourceUrl lb = Driver.httpSourceUrl ld →
  Driver.gzip_HuffmanOnly ≤ Driver.gzipCompressionLevel ld ≤ Driver.gzip_BestCompression →
  logs ≠ [] →
  (Driver.makePostRequest ld logs resp).1 =
    [Driver.HttpDo
       {| Method := "POST"; URL := u;
          Header :=
            ("Content-Type", "text/plain")
            :: (if Driver.gzipCompression ld then [("Content-Encoding", "gzip")] else []);
          Body :=
            if Driver.gzipCompression ld
            then gzip_compress (Driver.gzipCompressionLevel ld) (newline_terminated logs)
            else newline_terminated logs |}]
  ∧
  (Batching.sendLogs lb logs resp).1 =
    [Batching.HttpDo
       {| Method := "POST"; URL := u; Header := [];
          Body := newline_terminated logs |}].
Proof.
  intros Hurl Hsame Hlevel Hne. split.
  - by apply makePostRequest_request.
  - apply sendLogs_request. by rewrite Hsame.
Qed.

Lemma sendLogs_request_lacks_headers_witness :
  (@Driver.makePostRequest sample_runtime sample_driver_logger
     [record_of_size 2 "h"%byte] answer_200).1 =
    [Driver.HttpDo
       {| Method := "POST"; URL := "https://collectors.example/receiver";
          Header := [("Content-Type", "text/plain"); ("Content-Encoding", "gzip")];
          Body := ["h"; "h"; "010"]%byte |}]
  ∧
  (@Batching.sendLogs sample_runtime sample_logger
     [record_of_size 2 "h"%byte] answer_200).1 =
    [Batching.HttpDo
       {| Method := "POST"; URL := "https://collectors.example/receiver";
          Header := []; Body := ["h"; "h"; "010"]%byte |}].
Proof.
  apply (@sendLogs_request_lacks_headers sample_runtime sample_driver_logger
           sample_logger "https://collectors.example/receiver"
           [record_of_size 2 "h"%byte] answer_200).
  - reflexivity.
  - reflexivity.
  - vm_compute. split; discriminate.
  - discriminate.
Defined.

(** C9. The record queue closing on a batcher that holds no record, the
    batch queue having room: the empty batch is put on the batch queue,
    which is then closed. [sendLogs] of the second source, given the empty
    batch, makes a POST with an empty body. [makePostRequest] of
    [src/driver.go], given no logs, makes no request and returns [nil]. *)
Theorem empty_batch_is_queued_and_posted `{Runtime}
    (l : Batching.sumoLogger) (ld : Driver.sumoLogger) (u : string)
    (st : Batching.batcher) (resp : response) :
  Batching.logs (Batching.logBatch st) = [] →
  (length (Batching.logBatchQueue st) < Batching.logBatchQueueCap l)%nat →
  url_Parse (Batching.httpSourceUrl l) = inr u →
  Batching.batchClose l st =
    Some {| Batching.logBatch := Batching.logBatch st;
            Batching.logBatchQueue := Batching.logBatchQueue st ++ [[]];
            Batching.queueClosed := true;
            Batching.handedOff := Batching.handedOff st ++ [[]];
            Batching.logged := Batching.logged st |}
  ∧
  (Batching.sendLogs l [] resp).1 =
    [Batching.HttpDo {| Method := "POST"; URL := u; Header := []; Body := [] |}]
  ∧
  Driver.makePostRequest ld [] resp = ([], None).
Proof.
  intros Hempty Hroom Hurl. split_and!.
  - unfold Batching.batchClose. rewrite chan_send_room by done. simpl.
    by rewrite Hempty.
  - by rewrite (sendLogs_request l u Hurl).
  - reflexivity.
Qed.

(** A logger that starts and is closed before any record arrives: the
    batch queue receives one empty batch, and the sender POSTs an empty
    body for it. *)
Lemma empty_batch_is_queued_and_posted_witness :
  Batching.logBatchQueue <$> Batching.batchLogs sample_logger [] = Some [[]]
  ∧
  @Batching.handleBatchedLogs sample_runtime sample_logger [[]] [answer_200] =
    [Batching.HttpDo
       {| Method := "POST"; URL := "https://collectors.example/receiver";
          Header := []; Body := [] |}]
  ∧
  @Driver.makePostRequest sample_runtime sample_driver_logger [] answer_200 = ([], None).
Proof.
  destruct (@empty_batch_is_queued_and_posted sample_runtime sample_logger
              sample_driver_logger "https://collectors.example/receiver"
              Batching.batcher_init answer_200)
    as (Hclose & Hsend & Hnone).
  - reflexivity.
  - simpl. lia.
  - reflexivity.
  - split_and!.
    + transitivity (Batching.logBatchQueue
                      <$> Batching.batchClose sample_logger Batching.batcher_init);
        [reflexivity | rewrite Hclose; reflexivity].
    + reflexivity.
    + exact Hnone.
Defined.

(** ** The registry of loggers *)

Section Registry.
Context `{Runtime}.

(** A logger that [startLoggingInternal] returns was not registered
    before, is registered after, and has validated options. *)
Lemma startLoggingInternal_validated (drv drv' : Driver.sumoDriver) (file : string)
    (info : Driver.Info) (lg : Driver.sumoLogger) (eff : list Driver.driver_effect) :
  Driver.startLoggingInternal drv file info = (inr lg, drv', eff) →
  Driver.loggers drv !! file = None ∧
  Driver.loggers drv' = <[file := lg]> (Driver.loggers drv) ∧
  0 < Driver.batchSize lg ∧
  0 < Driver.logQueue lg ∧
  0 < Driver.sendingInterval lg ∧
  Driver.gzip_DefaultCompression ≤ Driver.gzipCompressionLevel lg ≤ Driver.gzip_BestCompression.
Proof.
  unfold Driver.startLoggingInternal.
  destruct (Driver.loggers drv !! file) eqn:Hfile; [done|].
  destruct (fifo_OpenFifo file) as [e|f]; [done|].
  destruct (Driver.parseLogOptBoolean info Driver.logOptGzipCompression _) as [gz e1].
  destruct (Driver.parseLogOptInt info Driver.logOptGzipCompressionLevel _) as [level0 e2].
  destruct (Driver.parseLogOptBoolean info Driver.logOptInsecureSkipVerify _) as [skip e4].
  destruct (Driver.parseLogOptProxyUrl info Driver.logOptProxyUrl None) as [proxy e5].
  destruct (Driver.parseLogOptDuration info Driver.logOptSendingInterval _) as [interval0 e6].
  destruct (Driver.parseLogOptInt info Driver.logOptQueueSize _) as [queue0 e8].
  destruct (Driver.parseLogOptInt info Driver.logOptBatchSize _) as [batch0 e10].
  destruct ((level0 <? _) || (_ <? level0)) eqn:Hlevel;
    destruct (interval0 <=? 0) eqn:Hinterval;
    destruct (queue0 <=? 0) eqn:Hqueue;
    destruct (batch0 <=? 0) eqn:Hbatch;
    (destruct (Driver.Config info !! Driver.logOptRootCaPath) as [path|];
       [destruct (ioutil_ReadFile path) as [e|pem]; [done|] |]);
    intros [= <- <- <-]; simpl;
    try apply orb_false_iff in Hlevel as [?%Z.ltb_ge ?%Z.ltb_ge];
    try apply Z.leb_gt in Hinterval;
    try apply Z.leb_gt in Hqueue;
    try apply Z.leb_gt in Hbatch;
    unfold Driver.defaultBatchSize, Driver.defaultQueueSize,
      Driver.defaultSendingInterval, Driver.defaultGzipCompressionLevel,
      Driver.gzip_DefaultCompression, Driver.gzip_BestCompression in *;
    split_and!; try done; lia.
Qed.

End Registry.

(** C8. A start for a file that has a logger in the registry: the error
    is the result of the call; the driver, its registry with it, is the
    one before; and there is no effect, so no fifo is opened, no logger
    is made and no goroutine is started. *)
Theorem StartLogging_rejects_duplicate `{Runtime} (drv : Driver.sumoDriver)
    (file : string) (info : Driver.Info) (lg : Driver.sumoLogger) :
  Driver.loggers drv !! file = Some lg →
  Driver.startLoggingInternal drv file info =
    (inl (Errorf "a logger for %q already exists" [fmt_string file]), drv, [])
  ∧
  Driver.StartLogging drv file info =
    (Some (Errorf "a logger for %q already exists" [fmt_string file]), drv, []).
Proof.
  intros Hfile. unfold Driver.StartLogging, Driver.startLoggingInternal.
  by rewrite Hfile.
Qed.

Lemma StartLogging_rejects_duplicate_witness :
  @Driver.StartLogging sample_runtime sample_driver "/run/docker/logging/1f3a" sample_info =
    (Some (Errorf "a logger for %q already exists"
             [fmt_string "/run/docker/logging/1f3a"]),
     sample_driver, []).
Proof.
  apply (@StartLogging_rejects_duplicate sample_runtime sample_driver
           "/run/docker/logging/1f3a" sample_info sample_driver_logger).
  apply lookup_singleton_eq.
Defined.

(** A start for a file that has no logger registers one and starts the
    two goroutines. *)
Example StartLogging_fresh :
  let r := @Driver.StartLogging sample_runtime Driver.newSumoDriver
             "/run/docker/logging/1f3a" sample_info in
  r.1.1 = None
  ∧ bool_decide (is_Some (Driver.loggers r.1.2 !! "/run/docker/logging/1f3a")) = true
  ∧ length r.2 = 2%nat.
Proof. vm_compute. done. Qed.

(** C10. [StopLogging] returns [nil] whatever the file. With no logger
    for the file the driver is unchanged and nothing is done. With a
    logger, its input file is closed and the registry loses that entry
    and no other. *)
Theorem StopLogging_returns_nil (drv : Driver.sumoDriver) (file : string) :
  (Driver.StopLogging drv file).1.1 = None
  ∧
  (Driver.loggers drv !! file = None →
   Driver.StopLogging drv file = (None, drv, []))
  ∧
  (∀ lg, Driver.loggers drv !! file = Some lg →
   ∃ drv',
     Driver.StopLogging drv file =
       (None, drv', [Driver.CloseFile (Driver.inputQueueFile lg)]) ∧
     Driver.loggers drv' = delete file (Driver.loggers drv) ∧
     Driver.loggers drv' !! file = None ∧
     ∀ other, other ≠ file →
       Driver.loggers drv' !! other = Driver.loggers drv !! other).
Proof.
  unfold Driver.StopLogging. split_and!.
  - by destruct (Driver.loggers drv !! file).
  - by intros ->.
  - intros lg ->. eexists. split_and!; [done | done | |]; simpl.
    + apply lookup_delete_eq.
    + intros other Hne. by apply lookup_delete_ne.
Qed.

Lemma StopLogging_returns_nil_witness :
  Driver.StopLogging Driver.newSumoDriver "/run/docker/logging/none" =
    (None, Driver.newSumoDriver, [])
  ∧
  ∃ drv',
    Driver.StopLogging sample_driver "/run/docker/logging/1f3a" =
      (None, drv', [Driver.CloseFile 3%nat]) ∧
    Driver.loggers drv' !! "/run/docker/logging/1f3a" = None.
Proof.
  split.
  - apply (StopLogging_returns_nil Driver.newSumoDriver "/run/docker/logging/none").
    apply lookup_empty.
  - destruct (StopLogging_returns_nil sample_driver "/run/docker/logging/1f3a")
      as (_ & _ & Hpresent).
    destruct (Hpresent sample_driver_logger) as (drv' & Hstop & _ & Hgone & _).
    + apply lookup_singleton_eq.
    + exists drv'. split; [exact Hstop | exact Hgone].
Defined.

(** * Further properties *)

(** ** The decoder on whole streams *)

Section DecoderStreams.
Context `{Runtime}.

(** More fuel does not change a result. *)
Lemma consumeLoop_fuel_mono (fuel fuel' : nat) (r : list byte) (log : LogEntry) tr :
  consumeLoop fuel r log = Some tr →
  (fuel ≤ fuel')%nat →
  consumeLoop fuel' r log = Some tr.
Proof.
  revert fuel' r log tr. induction fuel as [|fuel IH]; intros fuel' r log tr; [done|].
  destruct fuel' as [|fuel']; [lia|]. intros Hrun Hle.
  rewrite consumeLoop_unfold in *.
  destruct (ReadMsg fileReaderMaxSize r log) as [[err r'] log'].
  destruct err as [e|]; [destruct (is_EOF e); [done|]|].
  - destruct (consumeLoop fuel r' LogEntry_zero) as [rest|] eqn:Hrest; [|done].
    by rewrite (IH fuel' _ _ _ Hrest) by lia.
  - destruct (consumeLoop fuel r' LogEntry_zero) as [rest|] eqn:Hrest; [|done].
    by rewrite (IH fuel' _ _ _ Hrest) by lia.
Qed.

Lemma consumeLoop_enough (fuel : nat) (r : list byte) (log : LogEntry) :
  (length r < fuel)%nat →
  consumeLoop fuel r log = consumeLoop (S (length r)) r log.
Proof.
  intros Hfuel.
  destruct (consumeLoop_total (S (length r)) r log) as [tr Htr]; [lia|].
  rewrite Htr. eapply consumeLoop_fuel_mono; [done | lia].
Qed.

Lemma length_frames_bytes (fs : list frame) :
  Forall well_framed fs → (4 * length fs ≤ length (frames_bytes fs))%nat.
Proof.
  induction 1 as [|f fs [Hlen _] _ IH]; simpl; [lia|].
  unfold frames_bytes in *. simpl. unfold frame_bytes at 1.
  rewrite !length_app. lia.
Qed.

(** Well-formed frames at the head of a stream: their records, then
    whatever the rest of the stream gives. *)
Lemma consumeLoop_frames (fs : list frame) (tail : list byte) (fuel : nat) :
  Forall well_framed fs →
  Forall (λ f, (proto_Unmarshal f.2).2 = None) fs →
  consumeLoop (length fs + fuel) (frames_bytes fs ++ tail) LogEntry_zero =
    rest ← consumeLoop fuel tail LogEntry_zero;
    Some (map (λ f, SendLog (sumoLog_of (proto_Unmarshal f.2).1)) fs ++ rest).
Proof.
  intros Hwf Hok. induction Hwf as [|f fs (Hlen & Hval & Hmax) _ IH].
  - simpl. by destruct (consumeLoop fuel tail LogEntry_zero).
  - apply Forall_cons in Hok as [Hf Hok]. specialize (IH Hok).
    change (length (f :: fs) + fuel)%nat with (S (length fs + fuel)).
    rewrite consumeLoop_unfold.
    unfold frames_bytes. simpl. unfold frame_bytes at 1.
    rewrite <- !app_assoc. rewrite ReadMsg_frame by done.
    destruct (proto_Unmarshal f.2) as [msg err]. simpl in Hf. subst err.
    fold (frames_bytes fs). rewrite IH.
    by destruct (consumeLoop fuel tail LogEntry_zero).
Qed.

Lemma consumeLogsFromFile_frames_then (fs : list frame) (tail : list byte) :
  Forall well_framed fs →
  Forall (λ f, (proto_Unmarshal f.2).2 = None) fs →
  consumeLogsFromFile (frames_bytes fs ++ tail) =
    rest ← consumeLogsFromFile tail;
    Some (map (λ f, SendLog (sumoLog_of (proto_Unmarshal f.2).1)) fs ++ rest).
Proof.
  intros Hwf Hok. unfold consumeLogsFromFile.
  pose proof (length_frames_bytes fs Hwf) as Hlen.
  rewrite length_app.
  replace (S (length (frames_bytes fs) + length tail))
    with (length fs + (S (length (frames_bytes fs) + length tail) - length fs))%nat by lia.
  rewrite consumeLoop_frames by done.
  by rewrite consumeLoop_enough by lia.
Qed.

End DecoderStreams.

Section DecoderEdges.
Context `{Runtime}.

Lemma consumeLoop_nil (fuel : nat) (log : LogEntry) :
  consumeLoop (S fuel) [] log = Some closing.
Proof. reflexivity. Qed.

Lemma ReadMsg_cut (tail : list byte) (msg : LogEntry) :
  cut_frame tail →
  ReadMsg fileReaderMaxSize tail msg = (Some io_ErrUnexpectedEOF, [], msg).
Proof.
  intros [Hshort | (lenBuf & partial & -> & Hlen & Hmax & Hpart)]; unfold ReadMsg.
  - unfold io_ReadFull. destruct tail as [|b tail]; [simpl in Hshort; lia|].
    by rewrite decide_True by lia.
  - rewrite <- Hlen, io_ReadFull_app.
    replace (BigEndian_Uint32 lenBuf <? 0) with false by (symmetry; apply Z.ltb_ge; lia).
    replace (fileReaderMaxSize <? BigEndian_Uint32 lenBuf) with false
      by (symmetry; apply Z.ltb_ge; lia).
    simpl. unfold io_ReadFull, GoInt.len in *.
    destruct (Z.to_nat (BigEndian_Uint32 lenBuf)) as [|n] eqn:Hn; [lia|].
    destruct partial as [|b partial]; [simpl in Hpart; lia|].
    by rewrite decide_True by lia.
Qed.

Lemma consumeLogsFromFile_cut (tail : list byte) :
  cut_frame tail →
  consumeLogsFromFile tail =
    Some ([LogrusError io_ErrUnexpectedEOF; NewReader;
           SendLog (sumoLog_of LogEntry_zero)] ++ closing).
Proof.
  intros Hcut. unfold consumeLogsFromFile.
  assert (0 < length tail)%nat as Hne.
  { destruct Hcut as [? | (lenBuf & partial & -> & Hlen & _)]; [lia|].
    rewrite length_app. lia. }
  destruct (length tail) as [|n]; [lia|].
  rewrite consumeLoop_unfold, ReadMsg_cut by done. simpl is_EOF. cbv iota.
  by rewrite consumeLoop_nil.
Qed.

End DecoderEdges.

(** X1. A stream made of well-formed frames whose bodies all unmarshal:
    one record per frame, in the order of the frames, nothing logged, and
    then the closing of the input file and of the record queue. *)
Theorem consumeLogsFromFile_decodes_frames `{Runtime} (fs : list frame) :
  Forall well_framed fs →
  Forall (λ f, (proto_Unmarshal f.2).2 = None) fs →
  consumeLogsFromFile (frames_bytes fs) =
    Some (map (λ f, SendLog (sumoLog_of (proto_Unmarshal f.2).1)) fs ++ closing).
Proof.
  intros Hwf Hok. rewrite <- (app_nil_r (frames_bytes fs)).
  by rewrite consumeLogsFromFile_frames_then.
Qed.

Lemma consumeLogsFromFile_decodes_frames_witness :
  let f : frame := (["000"; "000"; "000"; "004"]%byte, hi_body) in
  sent_logs (default [] (@consumeLogsFromFile sample_runtime (frames_bytes [f; f]))) =
    [@sumoLog_of sample_runtime hi_entry; @sumoLog_of sample_runtime hi_entry].
Proof.
  intros f.
  rewrite (@consumeLogsFromFile_decodes_frames sample_runtime [f; f]).
  - reflexivity.
  - repeat constructor; vm_compute; discriminate.
  - repeat constructor.
Defined.

(** X2. A stream that ends right after a length prefix announcing a body
    that is not empty: the read of the body meets the end of the stream
    before any byte, which is [io.EOF], and the loop takes it for the end
    of the stream. The frames before it give their records, no error is
    logged and no record is sent for the announced frame. *)
Theorem consumeLogsFromFile_dangling_prefix `{Runtime} (fs : list frame)
    (lenBuf : list byte) :
  Forall well_framed fs →
  Forall (λ f, (proto_Unmarshal f.2).2 = None) fs →
  length lenBuf = 4%nat →
  0 < BigEndian_Uint32 lenBuf ≤ fileReaderMaxSize →
  consumeLogsFromFile (frames_bytes fs ++ lenBuf) =
    Some (map (λ f, SendLog (sumoLog_of (proto_Unmarshal f.2).1)) fs ++ closing).
Proof.
  intros Hwf Hok Hlen Hval.
  rewrite consumeLogsFromFile_frames_then by done.
  assert (consumeLogsFromFile lenBuf = Some closing) as ->; [|done].
  unfold consumeLogsFromFile. rewrite Hlen, consumeLoop_unfold.
  unfold ReadMsg. rewrite <- (app_nil_r lenBuf), <- Hlen, io_ReadFull_app.
  replace (BigEndian_Uint32 lenBuf <? 0) with false by (symmetry; apply Z.ltb_ge; lia).
  replace (fileReaderMaxSize <? BigEndian_Uint32 lenBuf) with false
    by (symmetry; apply Z.ltb_ge; lia).
  simpl. unfold io_ReadFull.
  destruct (Z.to_nat (BigEndian_Uint32 lenBuf)) as [|n] eqn:Hn; [lia|]. done.
Qed.

Lemma consumeLogsFromFile_dangling_prefix_witness :
  @consumeLogsFromFile sample_runtime (hi_frame ++ ["000"; "000"; "000"; "004"]%byte) =
    Some ([SendLog (@sumoLog_of sample_runtime hi_entry)] ++ closing).
Proof.
  apply (@consumeLogsFromFile_dangling_prefix sample_runtime
           [(["000"; "000"; "000"; "004"]%byte, hi_body)]
           ["000"; "000"; "000"; "004"]%byte).
  - repeat constructor; vm_compute; discriminate.
  - repeat constructor.
  - reflexivity.
  - vm_compute. split; [reflexivity | discriminate].
Defined.

(** X3. A stream cut inside a frame, after one to three bytes of a length
    prefix or after some but not all bytes of a body: the read fails with
    [io.ErrUnexpectedEOF], which is logged, and the loop sends a record
    built from the empty message buffer before the next read ends it. *)
Theorem consumeLogsFromFile_cut_frame `{Runtime} (fs : list frame) (tail : list byte) :
  Forall well_framed fs →
  Forall (λ f, (proto_Unmarshal f.2).2 = None) fs →
  cut_frame tail →
  consumeLogsFromFile (frames_bytes fs ++ tail) =
    Some (map (λ f, SendLog (sumoLog_of (proto_Unmarshal f.2).1)) fs
          ++ [LogrusError io_ErrUnexpectedEOF; NewReader;
              SendLog (sumoLog_of LogEntry_zero)]
          ++ closing).
Proof.
  intros Hwf Hok Hcut.
  rewrite consumeLogsFromFile_frames_then by done.
  by rewrite consumeLogsFromFile_cut.
Qed.

Lemma consumeLogsFromFile_cut_frame_witness :
  sent_logs (default [] (@consumeLogsFromFile sample_runtime
                           (hi_frame ++ ["000"; "000"]%byte))) =
    [@sumoLog_of sample_runtime hi_entry; @sumoLog_of sample_runtime LogEntry_zero].
Proof.
  change (hi_frame ++ ["000"; "000"]%byte)
    with (frames_bytes [(["000"; "000"; "000"; "004"]%byte, hi_body)]
          ++ ["000"; "000"]%byte).
  rewrite (@consumeLogsFromFile_cut_frame sample_runtime).
  - reflexivity.
  - repeat constructor; vm_compute; discriminate.
  - repeat constructor.
  - left. simpl. lia.
Defined.

Section DecoderShape.
Context `{Runtime}.

Lemma consumeLoop_shape (fuel : nat) (r : list byte) (log : LogEntry) :
  (length r < fuel)%nat →
  ∃ blocks : list (option error * sumoLog),
    consumeLoop fuel r log = Some (concat (map turn blocks) ++ closing) ∧
    (length blocks ≤ length r)%nat.
Proof.
  revert r log. induction fuel as [|fuel IH]; intros r log Hfuel; [lia|].
  rewrite consumeLoop_unfold.
  destruct (ReadMsg fileReaderMaxSize r log) as [[err r'] log'] eqn:E.
  pose proof (ReadMsg_progress _ _ _ _ _ _ E) as [Hnil Hcons].
  destruct r as [|b r].
  - rewrite (Hnil eq_refl). exists []. split; [done | simpl; lia].
  - specialize (Hcons ltac:(done)).
    destruct (IH r' LogEntry_zero) as (blocks & Hrest & Hlen); [simpl in *; lia|].
    destruct err as [e|]; [destruct (is_EOF e)|].
    + exists []. split; [done | simpl; lia].
    + exists ((Some e, sumoLog_of log') :: blocks). rewrite Hrest. simpl in *.
      split; [done | lia].
    + exists ((None, sumoLog_of log') :: blocks). rewrite Hrest. simpl in *.
      split; [done | lia].
Qed.

Lemma sent_logs_app (a b : list decoder_effect) :
  sent_logs (a ++ b) = sent_logs a ++ sent_logs b.
Proof. unfold sent_logs. apply omap_app. Qed.

End DecoderShape.

(** X4. On every stream [consumeLogsFromFile] returns, and what it did is
    a sequence of turns followed by the closing of the input file, of the
    record queue and of the reader, once, at the end. Each turn sends
    exactly one record, also the turns that logged a failed read; and
    there are at most as many turns as the stream has bytes. *)
Theorem consumeLogsFromFile_trace_shape `{Runtime} (inputFile : list byte) :
  ∃ blocks : list (option error * sumoLog),
    consumeLogsFromFile inputFile = Some (concat (map turn blocks) ++ closing) ∧
    sent_logs (concat (map turn blocks) ++ closing) = map snd blocks ∧
    (length blocks ≤ length inputFile)%nat.
Proof.
  destruct (consumeLoop_shape (S (length inputFile)) inputFile LogEntry_zero)
    as (blocks & Hrun & Hlen); [lia|].
  exists blocks. split_and!; [done | | done].
  rewrite sent_logs_app. change (sent_logs closing) with (@nil sumoLog).
  rewrite app_nil_r. clear.
  induction blocks as [|[[e|] log] blocks IH]; [done | |];
    cbn [map concat]; rewrite sent_logs_app, IH; done.
Qed.

(** ** The batcher and its queue over whole runs *)

Section BatcherHistory.
Import Batching.

Variable l : sumoLogger.
Hypothesis cap_pos : (0 < logBatchQueueCap l)%nat.

Local Abbreviation queue_inv := (queue_inv l).

Lemma queue_inv_mono (n m : nat) (st : batcher) :
  (n ≤ m)%nat → queue_inv n st → queue_inv m st.
Proof.
  intros Hnm (Hle & gone & Hh & Hcount & Hexact).
  split; [done|]. exists gone. split_and!; [done | lia |].
  intros ->. apply Hexact. lia.
Qed.

(** The push with the sender in its window: when it goes through, the
    queue still holds the newest hand-offs. *)
Lemma Racing_pushBatchToQueue_queue_inv (n : nat) (w : Racing.window) (st st' : batcher) :
  queue_inv n st →
  Racing.pushBatchToQueue l w st = Some st' →
  queue_inv (n + (Racing.before_receive w + Racing.before_send w)) st'.
Proof.
  intros (Hle & gone & Hh & Hcount & Hexact). unfold Racing.pushBatchToQueue.
  destruct (decide (length (logBatchQueue st) < logBatchQueueCap l)%nat) as [Hlt|Hge].
  - rewrite chan_send_room by done. intros [= <-].
    apply (queue_inv_mono n); [lia|].
    split; simpl; [rewrite length_app; simpl; lia|].
    exists gone. rewrite Hh, <- app_assoc. done.
  - rewrite chan_send_full by lia. unfold Racing.sender_receives.
    destruct w as [k1 k2]. simpl.
    destruct (drop k1 (logBatchQueue st)) as [|old q1] eqn:Hdrop; [done|]. simpl.
    assert (length (drop k1 (logBatchQueue st)) ≤ length (logBatchQueue st))%nat as Hlen1
      by (rewrite length_drop; lia).
    rewrite Hdrop in Hlen1. simpl in Hlen1.
    assert (length (drop k2 q1) ≤ length q1)%nat as Hlen2 by (rewrite length_drop; lia).
    rewrite chan_send_room by lia. simpl. intros [= <-].
    split; simpl; [rewrite length_app; simpl; lia|].
    exists (gone ++ take k1 (logBatchQueue st) ++ [old] ++ take k2 q1).
    split_and!.
    + pose proof (take_drop k1 (logBatchQueue st)) as E1. rewrite Hdrop in E1.
      pose proof (take_drop k2 q1) as E2.
      remember (take k1 (logBatchQueue st)) as t1.
      remember (take k2 q1) as t2. remember (drop k2 q1) as d2.
      rewrite Hh, <- E1, <- E2. rewrite <- !app_assoc. simpl. by rewrite <- !app_assoc.
    + rewrite errors_app, !length_app, !length_take. simpl. lia.
    + intros Hzero. assert (k1 = 0 ∧ k2 = 0 ∧ n = 0)%nat as (-> & -> & ->) by lia.
      rewrite errors_app, !length_app. simpl. lia.
Qed.

(** The push goes through when the sender leaves the batcher a batch to
    receive. *)
Lemma Racing_pushBatchToQueue_goes_through (w : Racing.window) (st : batcher) :
  (length (logBatchQueue st) ≤ logBatchQueueCap l)%nat →
  (Racing.before_receive w < logBatchQueueCap l)%nat →
  is_Some (Racing.pushBatchToQueue l w st).
Proof.
  intros Hle Hw. unfold Racing.pushBatchToQueue.
  destruct (decide (length (logBatchQueue st) < logBatchQueueCap l)%nat) as [Hlt|Hge].
  - by rewrite chan_send_room.
  - rewrite chan_send_full by lia. unfold Racing.sender_receives.
    destruct (drop (Racing.before_receive w) (logBatchQueue st)) as [|old q1] eqn:Hdrop.
    + apply (f_equal length) in Hdrop. rewrite length_drop in Hdrop. simpl in Hdrop. lia.
    + simpl.
      assert (length (drop (Racing.before_receive w) (logBatchQueue st))
              ≤ length (logBatchQueue st))%nat as Hlen1 by (rewrite length_drop; lia).
      rewrite Hdrop in Hlen1. simpl in Hlen1.
      assert (length (drop (Racing.before_send w) q1) ≤ length q1)%nat as Hlen2
        by (rewrite length_drop; lia).
      by rewrite chan_send_room by lia.
Qed.

(** The push is left waiting exactly when the queue is full and the
    sender empties it before the batcher's own receive. *)
Lemma Racing_pushBatchToQueue_waits (w : Racing.window) (st : batcher) :
  (length (logBatchQueue st) ≤ logBatchQueueCap l)%nat →
  Racing.pushBatchToQueue l w st = None ↔
  length (logBatchQueue st) = logBatchQueueCap l ∧
  (logBatchQueueCap l ≤ Racing.before_receive w)%nat.
Proof.
  intros Hle. split.
  - intros Hnone.
    destruct (decide (Racing.before_receive w < logBatchQueueCap l)%nat) as [Hw|Hw].
    { destruct (Racing_pushBatchToQueue_goes_through w st Hle Hw) as [st' Hsome].
      congruence. }
    destruct (decide (length (logBatchQueue st) < logBatchQueueCap l)%nat) as [Hlt|Hge];
      [|lia].
    unfold Racing.pushBatchToQueue in Hnone. by rewrite chan_send_room in Hnone.
  - intros [Hfull Hw]. unfold Racing.pushBatchToQueue, Racing.sender_receives.
    rewrite chan_send_full by lia. by rewrite drop_ge by lia.
Qed.

Lemma Racing_batchStep_queue_inv (n : nat) (st st' : batcher)
    (iw : input * Racing.window) :
  queue_inv n st →
  Racing.batchStep l st iw = Some st' →
  queue_inv (n + Racing.attempts iw) st'.
Proof.
  intros Hinv. destruct iw as [i w]. unfold Racing.batchStep, Racing.attempts.
  destruct i as [log| |]; simpl.
  - destruct (batchSize l <? GoInt.len (line log)).
    + intros [= <-]. apply (queue_inv_mono n); [lia|].
      destruct Hinv as (Hle & gone & Hh & Hcount & Hexact).
      split; [done|]. exists gone. simpl.
      rewrite errors_app. simpl. by rewrite app_nil_r.
    + destruct (batchSize l <? GoInt.add _ _).
      * destruct (Racing.pushBatchToQueue l w st) as [stp|] eqn:Hpush; [|done].
        simpl. intros [= <-].
        destruct (Racing_pushBatchToQueue_queue_inv n w st stp Hinv Hpush)
          as (Hle & gone & Hh & Hcount & Hexact).
        split; [done|]. by exists gone.
      * simpl. intros [= <-]. apply (queue_inv_mono n); [lia|].
        destruct Hinv as (Hle & gone & Hh & Hcount & Hexact).
        split; [done|]. by exists gone.
  - destruct (0 <? _).
    + by apply Racing_pushBatchToQueue_queue_inv.
    + intros [= <-]. by apply (queue_inv_mono n); [lia|].
  - intros [= <-].
    destruct Hinv as (Hle & gone & Hh & Hcount & Hexact).
    destruct (logBatchQueue st) as [|old q] eqn:Hq; simpl in *.
    + split; simpl; [lia|]. exists gone. split_and!; [done | lia | lia].
    + split; simpl; [lia|]. exists (gone ++ [old]).
      rewrite Hh, <- app_assoc, length_app. simpl. split_and!; [done | lia | lia].
Qed.

Lemma Racing_batchLoop_queue_inv (ins : list (input * Racing.window)) (n : nat)
    (st st' : batcher) :
  queue_inv n st →
  Racing.batchLoop l ins st = Some st' →
  queue_inv (n + Racing.receives ins) st'.
Proof.
  revert n st. induction ins as [|iw ins IH]; intros n st Hinv; simpl.
  - intros [= <-]. by rewrite Nat.add_0_r.
  - destruct (Racing.batchStep l st iw) as [st1|] eqn:Hstep; [|done]. simpl.
    intros Hloop.
    pose proof (Racing_batchStep_queue_inv n st st1 iw Hinv Hstep) as Hinv1.
    pose proof (IH _ _ Hinv1 Hloop) as Hinv2.
    by rewrite Nat.add_assoc.
Qed.

Lemma Racing_batchStep_goes_through (n : nat) (st : batcher) (iw : input * Racing.window) :
  queue_inv n st →
  (Racing.before_receive iw.2 < logBatchQueueCap l)%nat →
  is_Some (Racing.batchStep l st iw).
Proof.
  intros Hinv Hw. destruct iw as [i w]. unfold Racing.batchStep.
  pose proof (Racing_pushBatchToQueue_goes_through w st (proj1 Hinv) Hw) as [stp Hpush].
  destruct i as [log| |]; simpl.
  - destruct (batchSize l <? GoInt.len (line log)); [done|].
    destruct (batchSize l <? GoInt.add _ _); [by rewrite Hpush | done].
  - destruct (0 <? _); [by rewrite Hpush | done].
  - done.
Qed.

Lemma Racing_batchLoop_goes_through (ins : list (input * Racing.window)) (n : nat)
    (st : batcher) :
  queue_inv n st →
  Forall (λ iw, Racing.before_receive iw.2 < logBatchQueueCap l)%nat ins →
  is_Some (Racing.batchLoop l ins st).
Proof.
  revert n st. induction ins as [|iw ins IH]; intros n st Hinv Hall; simpl; [done|].
  apply Forall_cons in Hall as [Hw Hall].
  destruct (Racing_batchStep_goes_through n st iw Hinv Hw) as [st1 Hstep].
  rewrite Hstep. simpl.
  apply (IH (n + Racing.attempts iw)%nat); [|done].
  exact (Racing_batchStep_queue_inv n st st1 iw Hinv Hstep).
Qed.

End BatcherHistory.

(** With the sender out of every window the finer loop is the loop of
    [Batching]. *)
Lemma Racing_batchLoop_quiet (l : Batching.sumoLogger) (ins : list Batching.input)
    (st : Batching.batcher) :
  Racing.batchLoop l (map (λ i, (i, Racing.quiet)) ins) st = Batching.batchLoop l ins st.
Proof.
  assert (∀ st, Racing.pushBatchToQueue l Racing.quiet st = Batching.pushBatchToQueue l st)
    as Hpush.
  { intros st0. unfold Racing.pushBatchToQueue, Batching.pushBatchToQueue,
      Racing.sender_receives. simpl.
    destruct (chan_send _ _ _); [done|]. rewrite drop_0.
    destruct (chan_recv (Batching.logBatchQueue st0)) as [[old q1]|]; simpl; [|done].
    by rewrite drop_0. }
  revert st. induction ins as [|i ins IH]; intros st; simpl; [done|].
  assert (Racing.batchStep l st (i, Racing.quiet) = Batching.batchStep l st i) as ->.
  { unfold Racing.batchStep. destruct i; simpl; by rewrite ?Hpush. }
  destruct (Batching.batchStep l st i); simpl; [apply IH | done].
Qed.

(** X5. The batcher's loop with the sender receiving where it can:
    between two turns of the loop and, inside the [default] branch of
    [pushBatchToQueue], before the batcher's own receive and before its
    send; the batch queue has a capacity of at least one. Whenever the
    loop goes through, the queue is within its capacity and holds the
    newest of the batches handed off, in the order of their hand-off;
    the batches handed off before those were received by the sender or
    dropped, each drop with one logged error, and with no receive at all
    as many were dropped as errors were logged. The loop goes through
    when the sender receives fewer batches than the capacity before each
    of the batcher's own receives. A push is left waiting, for ever,
    exactly when the queue is full and the sender empties it before the
    batcher's own receive. *)
Theorem batchLoop_queue_holds_newest_handoffs (l : Batching.sumoLogger)
    (ins : list (Batching.input * Racing.window)) :
  (0 < Batching.logBatchQueueCap l)%nat →
  (∀ st, Racing.batchLoop l ins Batching.batcher_init = Some st →
     (length (Batching.logBatchQueue st) ≤ Batching.logBatchQueueCap l)%nat ∧
     ∃ gone,
       Batching.handedOff st = gone ++ Batching.logBatchQueue st ∧
       (length gone ≤ Racing.receives ins
                      + length (Batching.errors (Batching.logged st)))%nat ∧
       (Racing.receives ins = 0%nat →
        length gone = length (Batching.errors (Batching.logged st))))
  ∧
  (Forall (λ iw, Racing.before_receive iw.2 < Batching.logBatchQueueCap l)%nat ins →
   is_Some (Racing.batchLoop l ins Batching.batcher_init))
  ∧
  (∀ st w,
     (length (Batching.logBatchQueue st) ≤ Batching.logBatchQueueCap l)%nat →
     Racing.pushBatchToQueue l w st = None ↔
     length (Batching.logBatchQueue st) = Batching.logBatchQueueCap l ∧
     (Batching.logBatchQueueCap l ≤ Racing.before_receive w)%nat).
Proof.
  intros Hcap.
  assert (queue_inv l 0 Batching.batcher_init) as Hinit.
  { split; [simpl; lia|]. exists []. simpl. split_and!; [done | lia | done]. }
  split_and!.
  - intros st Hrun.
    exact (Racing_batchLoop_queue_inv l Hcap ins 0 _ st Hinit Hrun).
  - intros Hall. by apply (Racing_batchLoop_goes_through l Hcap ins 0).
  - intros st w Hle. by apply Racing_pushBatchToQueue_waits.
Qed.

Lemma batchLoop_queue_holds_newest_handoffs_witness :
  ∃ st gone,
    Racing.batchLoop sample_logger (racing_run 1) Batching.batcher_init = Some st ∧
    Batching.handedOff st = gone ++ Batching.logBatchQueue st ∧
    (length (Batching.logBatchQueue st) ≤ 2)%nat.
Proof.
  destruct (batchLoop_queue_holds_newest_handoffs sample_logger (racing_run 1))
    as (Hinv & Hthrough & _).
  - simpl. lia.
  - destruct Hthrough as [st Hrun].
    + repeat constructor.
    + destruct (Hinv st Hrun) as (Hle & gone & Hh & _).
      exists st, gone. split_and!; [exact Hrun | exact Hh | exact Hle].
Defined.

(** The run of four records when the sender receives one batch before
    the batcher's own receive: the batcher drops the second batch from a
    queue that is no longer full, and only the third is left queued. *)
Example racing_run_drops_from_queue_with_room :
  Batching.logBatchQueue <$>
    Racing.batchLoop sample_logger (racing_run 1) Batching.batcher_init
  = Some [[record_of_size 200 "c"%byte]].
Proof. vm_compute. reflexivity. Qed.

(** When the sender receives both queued batches before the batcher's
    own receive, the batcher is left waiting on an empty queue. *)
Example racing_run_waits_for_ever :
  Racing.batchLoop sample_logger (racing_run 2) Batching.batcher_init = None.
Proof. vm_compute. reflexivity. Qed.

Section BatcherShapes.
Import Batching.

Variable l : sumoLogger.
Hypothesis threshold : 0 ≤ batchSize l ≤ GoInt.max_int32.

Lemma add_len_exact (s : Z) (log : sumoLog) :
  0 ≤ s ≤ batchSize l →
  GoInt.add s (GoInt.len (line log)) = s + GoInt.len (line log) ∨
  batchSize l < GoInt.len (line log).
Proof.
  intros Hs. pose proof (len_nonneg (line log)).
  destruct (decide (GoInt.len (line log) ≤ batchSize l)); [left | right; lia].
  unfold GoInt.add. apply wrap_small.
  unfold GoInt.min_int, GoInt.max_int, GoInt.max_int32 in *. lia.
Qed.

(** Only a batch that holds a record is handed off by the loop. *)
Lemma batchStep_handoffs_nonempty (st st' : batcher) (i : input) :
  size_inv l st →
  Forall (λ b, b ≠ []) (handedOff st) →
  batchStep l st i = Some st' →
  Forall (λ b, b ≠ []) (handedOff st').
Proof.
  intros [Hsz Hall] Hne Hstep.
  destruct i as [log| |]; simpl in Hstep.
  - destruct (batchSize l <? GoInt.len (line log)) eqn:Hbig.
    + by injection Hstep as <-.
    + apply Z.ltb_ge in Hbig.
      destruct (batchSize l <? GoInt.add _ _) eqn:Hover.
      * destruct (pushBatchToQueue l st) as [st1|] eqn:Hp; simpl in Hstep; [|done].
        injection Hstep as <-. apply pushBatchToQueue_inv in Hp as [Hb Hh].
        simpl. rewrite Hh, Forall_app, Forall_singleton. split; [done|].
        intros Hnil. rewrite Hnil in Hsz. simpl in Hsz. rewrite Hsz in Hover.
        apply Z.ltb_lt in Hover.
        destruct (add_len_exact 0 log) as [Hadd|?]; [lia | | lia].
        rewrite Hadd in Hover. lia.
      * simpl in Hstep. by injection Hstep as <-.
  - destruct (0 <? GoInt.len (logs (logBatch st))) eqn:Hpos.
    + apply pushBatchToQueue_inv in Hstep as [Hb Hh].
      rewrite Hh, Forall_app, Forall_singleton. split; [done|].
      intros Hnil. by rewrite Hnil in Hpos.
    + by injection Hstep as <-.
  - by injection Hstep as <-.
Qed.

Lemma batchLoop_handoffs_nonempty (ins : list input) (st st' : batcher) :
  size_inv l st →
  Forall (λ b, b ≠ []) (handedOff st) →
  batchLoop l ins st = Some st' →
  Forall (λ b, b ≠ []) (handedOff st').
Proof.
  revert st. induction ins as [|i ins IH]; intros st Hinv Hne; simpl.
  - by intros [= <-].
  - destruct (batchStep l st i) as [st1|] eqn:Hstep; simpl; [|done].
    apply IH.
    + by eapply batchStep_size.
    + by eapply batchStep_handoffs_nonempty.
Qed.

Lemma tight_grow (bs : list (list sumoLog)) (b : list sumoLog) (log : sumoLog) :
  tight l (bs ++ [b]) → tight l (bs ++ [b ++ [log]]).
Proof.
  induction bs as [|a bs IH]; [done|].
  destruct bs as [|a' bs].
  - simpl. intros [(log0 & tl & -> & Hover) _]. split; [|done].
    exists log0, (tl ++ [log]). done.
  - intros [Hpair Hrest]. specialize (IH Hrest).
    split; [done | exact IH].
Qed.

Lemma tight_flush (bs : list (list sumoLog)) (b : list sumoLog) (log : sumoLog) :
  tight l (bs ++ [b]) →
  batchSize l < payload_size b + GoInt.len (line log) →
  tight l ((bs ++ [b]) ++ [[log]]).
Proof.
  intros Ht Hover. induction bs as [|a bs IH].
  - simpl. split; [|done]. by exists log, [].
  - destruct bs as [|a' bs].
    + simpl in *. destruct Ht as [Hpair _]. split; [done|].
      split; [|done]. by exists log, [].
    + destruct Ht as [Hpair Hrest]. specialize (IH Hrest).
      split; [done | exact IH].
Qed.

Lemma batchStep_tight (st st' : batcher) (i : input) :
  is_tick i = false →
  size_inv l st →
  tight l (batches_of st) →
  batchStep l st i = Some st' →
  tight l (batches_of st').
Proof.
  intros Htick [Hsz Hall] Ht Hstep.
  unfold batches_of in Hall. apply Forall_app in Hall as [_ Hcur].
  rewrite Forall_singleton in Hcur.
  pose proof (payload_size_nonneg (logs (logBatch st))) as Hnn.
  destruct i as [log| |]; simpl in Hstep; [| done |].
  - destruct (batchSize l <? GoInt.len (line log)) eqn:Hbig.
    + by injection Hstep as <-.
    + apply Z.ltb_ge in Hbig.
      destruct (add_len_exact (sizeBytes (logBatch st)) log) as [Hadd|?]; [lia | | lia].
      rewrite Hadd in Hstep.
      destruct (batchSize l <? _) eqn:Hover.
      * destruct (pushBatchToQueue l st) as [st1|] eqn:Hp; simpl in Hstep; [|done].
        injection Hstep as <-. apply pushBatchToQueue_inv in Hp as [Hb Hh].
        apply Z.ltb_lt in Hover.
        unfold batches_of, append_log in *. simpl. rewrite Hb, Hh. simpl.
        apply tight_flush; [done | lia].
      * simpl in Hstep. injection Hstep as <-.
        unfold batches_of, append_log in *. simpl. by apply tight_grow.
  - by injection Hstep as <-.
Qed.

Lemma batchLoop_tight (ins : list input) (st st' : batcher) :
  Forall (λ i, is_tick i = false) ins →
  size_inv l st →
  tight l (batches_of st) →
  batchLoop l ins st = Some st' →
  tight l (batches_of st').
Proof.
  intros Hticks. revert st.
  induction Hticks as [|i ins Hi _ IH]; intros st Hinv Ht; simpl.
  - by intros [= <-].
  - destruct (batchStep l st i) as [st1|] eqn:Hstep; simpl; [|done].
    apply IH.
    + by eapply batchStep_size.
    + by eapply batchStep_tight.
Qed.

End BatcherShapes.

(** X6. After any inputs, [sizeBytes] of the batch held is exactly the
    cumulative payload size of the records in it, between zero and the
    threshold. *)
Theorem batchLoop_sizeBytes_exact (l : Batching.sumoLogger) (ins : list Batching.input) :
  (0 < Batching.logBatchQueueCap l)%nat →
  0 ≤ Batching.batchSize l ≤ GoInt.max_int32 →
  ∃ st, Batching.batchLoop l ins Batching.batcher_init = Some st ∧
    Batching.sizeBytes (Batching.logBatch st)
      = Batching.payload_size (Batching.logs (Batching.logBatch st)) ∧
    0 ≤ Batching.sizeBytes (Batching.logBatch st) ≤ Batching.batchSize l.
Proof.
  intros Hcap Hbs.
  destruct (batchLoop_ok l ins Batching.batcher_init Hcap) as (st & Hrun & _);
    [simpl; lia|].
  exists st. split; [done|].
  eapply batchLoop_size in Hrun as [Hsz Hall]; [|done|apply size_inv_init; lia].
  unfold Batching.batches_of in Hall. apply Forall_app in Hall as [_ Hcur].
  rewrite Forall_singleton in Hcur. rewrite Hsz.
  pose proof (payload_size_nonneg (Batching.logs (Batching.logBatch st))).
  split; [done | lia].
Qed.

Lemma batchLoop_sizeBytes_exact_witness :
  ∃ st, Batching.batchLoop sample_logger (map Batching.Log three_records)
          Batching.batcher_init = Some st ∧
    Batching.sizeBytes (Batching.logBatch st)
      = Batching.payload_size (Batching.logs (Batching.logBatch st)).
Proof.
  destruct (batchLoop_sizeBytes_exact sample_logger (map Batching.Log three_records))
    as (st & Hrun & Hsz & _).
  - simpl. lia.
  - vm_compute. split; discriminate.
  - exists st. split; [exact Hrun | exact Hsz].
Defined.

(** X7. The loop never hands off an empty batch: neither a tick nor a
    record that does not fit finds an empty batch to flush. The one
    hand-off that can be empty is the send at the closing of the record
    queue. *)
Theorem batchLoop_never_hands_off_empty (l : Batching.sumoLogger)
    (ins : list Batching.input) :
  (0 < Batching.logBatchQueueCap l)%nat →
  0 ≤ Batching.batchSize l ≤ GoInt.max_int32 →
  ∃ st, Batching.batchLoop l ins Batching.batcher_init = Some st ∧
    Forall (λ b, b ≠ []) (Batching.handedOff st).
Proof.
  intros Hcap Hbs.
  destruct (batchLoop_ok l ins Batching.batcher_init Hcap) as (st & Hrun & _);
    [simpl; lia|].
  exists st. split; [done|].
  eapply (batchLoop_handoffs_nonempty l Hbs); [| |exact Hrun].
  - apply size_inv_init. lia.
  - constructor.
Qed.

Lemma batchLoop_never_hands_off_empty_witness :
  ∃ st, Batching.batchLoop sample_logger
          (Batching.Tick :: map Batching.Log three_records ++ [Batching.Tick; Batching.Tick])
          Batching.batcher_init = Some st ∧
    Forall (λ b, b ≠ []) (Batching.handedOff st).
Proof.
  apply (batchLoop_never_hands_off_empty sample_logger).
  - simpl. lia.
  - vm_compute. split; discriminate.
Defined.

(** X8. Without ticks the batches are filled as far as the threshold
    allows: every batch after the first starts with the record that did
    not fit into the batch before it. *)
Theorem batchLoop_batches_tight (l : Batching.sumoLogger) (ins : list Batching.input) :
  (0 < Batching.logBatchQueueCap l)%nat →
  0 ≤ Batching.batchSize l ≤ GoInt.max_int32 →
  Forall (λ i, is_tick i = false) ins →
  ∃ st, Batching.batchLoop l ins Batching.batcher_init = Some st ∧
    tight l (Batching.batches_of st).
Proof.
  intros Hcap Hbs Hticks.
  destruct (batchLoop_ok l ins Batching.batcher_init Hcap) as (st & Hrun & _);
    [simpl; lia|].
  exists st. split; [done|].
  eapply (batchLoop_tight l Hbs); [done | | |exact Hrun].
  - apply size_inv_init. lia.
  - done.
Qed.

Lemma batchLoop_batches_tight_witness :
  ∃ st, Batching.batchLoop sample_logger (map Batching.Log three_records)
          Batching.batcher_init = Some st ∧
    tight sample_logger (Batching.batches_of st).
Proof.
  apply (batchLoop_batches_tight sample_logger).
  - simpl. lia.
  - vm_compute. split; discriminate.
  - repeat constructor.
Defined.

(** X9. Right after a tick the batcher holds no record: every record
    within the threshold received so far has been handed off, in arrival
    order. *)
Theorem batchLoop_tick_flushes_all (l : Batching.sumoLogger) (ins : list Batching.input) :
  (0 < Batching.logBatchQueueCap l)%nat →
  ∃ st, Batching.batchLoop l (ins ++ [Batching.Tick]) Batching.batcher_init = Some st ∧
    Batching.logs (Batching.logBatch st) = [] ∧
    concat (Batching.handedOff st) = filter (Batching.fits l) (Batching.records ins).
Proof.
  intros Hcap.
  destruct (batchLoop_ok l ins Batching.batcher_init Hcap)
    as (st1 & Hrun & Hle & _ & Hcat & _); [simpl; lia|].
  simpl in Hcat. rewrite concat_batches_of in Hcat.
  rewrite batchLoop_app, Hrun. simpl.
  destruct (0 <? GoInt.len (Batching.logs (Batching.logBatch st1))) eqn:Hpos.
  - destruct (pushBatchToQueue_ok l st1 Hcap Hle) as (st & Hpush & Hb & Hh & _).
    exists st. rewrite Hpush. split_and!; [done | by rewrite Hb |].
    rewrite Hh, concat_app. simpl. by rewrite app_nil_r.
  - exists st1. split; [done|].
    assert (Batching.logs (Batching.logBatch st1) = []) as Hnil.
    { destruct (Batching.logs (Batching.logBatch st1)); [done | discriminate]. }
    split; [done|]. by rewrite Hnil, app_nil_r in Hcat.
Qed.

Lemma batchLoop_tick_flushes_all_witness :
  ∃ st, Batching.batchLoop sample_logger
          (map Batching.Log three_records ++ [Batching.Tick])
          Batching.batcher_init = Some st ∧
    concat (Batching.handedOff st) = three_records.
Proof.
  destruct (batchLoop_tick_flushes_all sample_logger (map Batching.Log three_records))
    as (st & Hrun & _ & Hcat).
  - simpl. lia.
  - exists st. split; [exact Hrun | exact Hcat].
Defined.

(** ** The sender over whole queues *)

Section SenderRuns.
Context `{Runtime}.
Import Batching.

Variable l : sumoLogger.

Lemma sendLogs_bad_url (logBatch : list sumoLog) (resp : response) (e : error) :
  url_Parse (httpSourceUrl l) = inl e →
  sendLogs l logBatch resp = ([], Some e).
Proof. intros Hurl. unfold sendLogs, http_NewRequest. by rewrite Hurl. Qed.

Lemma retryLoop_bad_url (logBatch : list sumoLog) (resps : list response) (e : error) :
  url_Parse (httpSourceUrl l) = inl e →
  retryLoop l logBatch resps = (replicate (length resps) (Sleep retryInterval), None).
Proof.
  intros Hurl. induction resps as [|r resps IH]; [done|].
  simpl. by rewrite (sendLogs_bad_url _ _ e Hurl), IH.
Qed.

End SenderRuns.

(** X10. With an endpoint URL that [url.Parse] refuses, [sendLogs] fails
    before any request, every time: the sender never POSTs anything, it
    sleeps [retryInterval] after each attempt on the first batch and never
    reaches the batches behind it. *)
Theorem handleBatchedLogs_bad_url_never_posts `{Runtime} (l : Batching.sumoLogger)
    (e : error) (logBatch : list sumoLog) (queue : list (list sumoLog))
    (resps : list response) :
  url_Parse (Batching.httpSourceUrl l) = inl e →
  Batching.handleBatchedLogs l (logBatch :: queue) resps =
    replicate (length resps) (Batching.Sleep Batching.retryInterval).
Proof.
  intros Hurl. simpl. by rewrite (retryLoop_bad_url l logBatch resps e Hurl).
Qed.

(** X11. With every answer a 200 and at least as many answers as batches,
    the sender POSTs each batch of the queue once, in queue order, never
    sleeps, and returns when the queue is drained. *)
Theorem handleBatchedLogs_all_succeed `{Runtime} (l : Batching.sumoLogger) (u : string)
    (queue : list (list sumoLog)) (resps : list response) :
  url_Parse (Batching.httpSourceUrl l) = inr u →
  Forall (λ r, Batching.is_success r = true) resps →
  (length queue ≤ length resps)%nat →
  Batching.handleBatchedLogs l queue resps =
    map (λ b, Batching.HttpDo (Batching.post_of u b)) queue.
Proof.
  intros Hurl Hok. revert queue.
  induction Hok as [|r resps Hr _ IH]; intros queue Hlen.
  - destruct queue; [done | simpl in Hlen; lia].
  - destruct queue as [|b queue]; [done|]. simpl.
    rewrite (sendLogs_success l u Hurl) by done. simpl.
    rewrite IH by (simpl in Hlen; lia). done.
Qed.

Lemma handleBatchedLogs_bad_url_never_posts_witness :
  @Batching.handleBatchedLogs sample_runtime_bad_url sample_logger
      [[record_of_size 2 "h"%byte]; []] [answer_200; answer_200] =
    [Batching.Sleep 5000000000; Batching.Sleep 5000000000].
Proof.
  apply (@handleBatchedLogs_bad_url_never_posts sample_runtime_bad_url sample_logger
           (LibError "invalid URL escape")).
  reflexivity.
Defined.

Lemma handleBatchedLogs_all_succeed_witness :
  @Batching.handleBatchedLogs sample_runtime sample_logger
      [[record_of_size 1 "a"%byte]; [record_of_size 1 "b"%byte]]
      [answer_200; answer_200; answer_200] =
    [Batching.HttpDo (Batching.post_of "https://collectors.example/receiver"
                        [record_of_size 1 "a"%byte]);
     Batching.HttpDo (Batching.post_of "https://collectors.example/receiver"
                        [record_of_size 1 "b"%byte])].
Proof.
  apply (@handleBatchedLogs_all_succeed sample_runtime sample_logger
           "https://collectors.example/receiver").
  - reflexivity.
  - repeat constructor.
  - simpl. lia.
Defined.

(** ** The wire body *)

Lemma newline_terminated_app (a b : list sumoLog) :
  newline_terminated (a ++ b) = newline_terminated a ++ newline_terminated b.
Proof. unfold newline_terminated. by rewrite map_app, concat_app. Qed.

(** Splitting at the first newline is unambiguous. *)
Lemma app_newline_inj (a b r1 r2 : list byte) :
  newline ∉ a → newline ∉ b →
  a ++ newline :: r1 = b ++ newline :: r2 →
  a = b ∧ r1 = r2.
Proof.
  revert b. induction a as [|x a IH]; intros b Ha Hb Heq.
  - destruct b as [|y b]; simpl in Heq.
    + by injection Heq as <-.
    + injection Heq as <- _. exfalso. apply Hb. left.
  - destruct b as [|y b]; simpl in Heq.
    + injection Heq as -> _. exfalso. apply Ha. left.
    + injection Heq as <- Heq.
      destruct (IH b) as [-> ->]; [| |done|done].
      * intros Hin. apply Ha. by right.
      * intros Hin. apply Hb. by right.
Qed.

(** X12. The body of a batch is as long as the payloads of its records
    together plus one byte for each record. *)
Theorem writeMessage_length (writer : list byte) (logs : list sumoLog) :
  GoInt.len (writeMessage writer logs) =
    GoInt.len writer + Batching.payload_size logs + GoInt.len logs.
Proof.
  rewrite writeMessage_spec. unfold GoInt.len. rewrite length_app.
  induction logs as [|log logs IH]; simpl; [lia|].
  unfold newline_terminated in *. simpl. rewrite !length_app. simpl.
  unfold GoInt.len. lia.
Qed.

(** X13. Batches whose payloads hold no newline and whose bodies are the
    same bytes hold the same payloads in the same order: the body can be
    split back into the payloads at the newlines. *)
Theorem writeMessage_injective (xs ys : list sumoLog) :
  Forall (λ log, newline ∉ line log) xs →
  Forall (λ log, newline ∉ line log) ys →
  writeMessage [] xs = writeMessage [] ys →
  map line xs = map line ys.
Proof.
  rewrite !writeMessage_spec. simpl. unfold newline_terminated.
  intros Hxs. revert ys. induction Hxs as [|x xs Hx _ IH]; intros ys Hys Heq.
  - destruct ys as [|y ys]; [done|]. simpl in Heq.
    by destruct (line y).
  - destruct ys as [|y ys]; simpl in Heq.
    + by destruct (line x).
    + apply Forall_cons in Hys as [Hy Hys].
      rewrite <- !app_assoc in Heq. simpl in Heq.
      apply app_newline_inj in Heq as [Hline Hrest]; [|done..].
      simpl. rewrite Hline. f_equal. by apply IH.
Qed.

Lemma writeMessage_injective_witness :
  map line [record_of_size 1 "a"%byte; record_of_size 2 "b"%byte] =
  map line [ {| line := ["a"]%byte; source := "stderr"; time := "t"; isPartial := true |};
             {| line := ["b"; "b"]%byte; source := "stderr"; time := "t";
                isPartial := false |} ].
Proof.
  apply writeMessage_injective.
  - repeat constructor; intros Hin; repeat (apply elem_of_cons in Hin as [Hin|Hin];
      [discriminate|]); by apply elem_of_nil in Hin.
  - repeat constructor; intros Hin; repeat (apply elem_of_cons in Hin as [Hin|Hin];
      [discriminate|]); by apply elem_of_nil in Hin.
  - reflexivity.
Defined.

(** X14. A newline inside a payload is written as it is: a record whose
    payload holds a newline gives the same bytes as two records with the
    two halves of the payload. *)
Theorem writeMessage_newline_splits (writer : list byte) (x y z : sumoLog)
    (logs : list sumoLog) :
  line x = line y ++ newline :: line z →
  writeMessage writer (x :: logs) = writeMessage writer (y :: z :: logs).
Proof.
  intros Hline. rewrite !writeMessage_spec. unfold newline_terminated. simpl.
  rewrite Hline, <- !app_assoc. simpl. done.
Qed.

Lemma writeMessage_newline_splits_witness :
  writeMessage []
    [ {| line := ["a"; "010"; "b"]%byte; source := "stdout"; time := "t";
         isPartial := false |} ] =
  writeMessage [] [record_of_size 1 "a"%byte; record_of_size 1 "b"%byte].
Proof.
  apply writeMessage_newline_splits. reflexivity.
Defined.

(** X15. Batching leaves the delivered bytes as they are: the bodies of
    the batches, handed off and held, one after the other, are the body
    that the records within the threshold would give as one batch. *)
Theorem batchLoop_preserves_wire_bytes (l : Batching.sumoLogger)
    (ins : list Batching.input) :
  (0 < Batching.logBatchQueueCap l)%nat →
  ∃ st, Batching.batchLoop l ins Batching.batcher_init = Some st ∧
    concat (map (writeMessage []) (Batching.batches_of st)) =
      writeMessage [] (filter (Batching.fits l) (Batching.records ins)).
Proof.
  intros Hcap.
  destruct (batchLoop_ok l ins Batching.batcher_init Hcap)
    as (st & Hrun & _ & _ & Hcat & _); [simpl; lia|].
  exists st. split; [done|]. simpl in Hcat. rewrite <- Hcat.
  rewrite writeMessage_spec. simpl.
  generalize (Batching.batches_of st). intros bs.
  induction bs as [|b bs IH]; simpl; [done|].
  by rewrite IH, writeMessage_spec, newline_terminated_app.
Qed.

Lemma batchLoop_preserves_wire_bytes_witness :
  ∃ st, Batching.batchLoop sample_logger (map Batching.Log three_records)
          Batching.batcher_init = Some st ∧
    concat (map (writeMessage []) (Batching.batches_of st)) =
      writeMessage [] three_records.
Proof.
  destruct (batchLoop_preserves_wire_bytes sample_logger (map Batching.Log three_records))
    as (st & Hrun & Hbytes).
  - simpl. lia.
  - exists st. split; [exact Hrun | exact Hbytes].
Defined.

(** ** Starting and stopping loggers *)

Section RegistryRuns.
Context `{Runtime}.

Lemma parseLogOptInt_logs info key d :
  Forall (λ e, is_logrus e = true) (Driver.parseLogOptInt info key d).2.
Proof.
  unfold Driver.parseLogOptInt.
  destruct (Driver.Config info !! key) as [v|]; [|constructor].
  destruct (strconv_ParseInt v); repeat constructor.
Qed.

Lemma parseLogOptBoolean_logs info key d :
  Forall (λ e, is_logrus e = true) (Driver.parseLogOptBoolean info key d).2.
Proof.
  unfold Driver.parseLogOptBoolean.
  destruct (Driver.Config info !! key) as [v|]; [|constructor].
  destruct (strconv_ParseBool v); repeat constructor.
Qed.

Lemma parseLogOptDuration_logs info key d :
  Forall (λ e, is_logrus e = true) (Driver.parseLogOptDuration info key d).2.
Proof.
  unfold Driver.parseLogOptDuration.
  destruct (Driver.Config info !! key) as [v|]; [|constructor].
  destruct (time_ParseDuration v); repeat constructor.
Qed.

Lemma parseLogOptProxyUrl_logs info key d :
  Forall (λ e, is_logrus e = true) (Driver.parseLogOptProxyUrl info key d).2.
Proof.
  unfold Driver.parseLogOptProxyUrl.
  destruct (Driver.Config info !! key) as [v|]; [|constructor].
  destruct (url_Parse v); repeat constructor.
Qed.

(** What [startLoggingInternal] can do: it only logs; on an error the
    driver is the one before; a logger it returns was not registered, is
    registered now, and reads the fifo that was opened for the file. *)
Lemma startLoggingInternal_cases (drv : Driver.sumoDriver) (file : string)
    (info : Driver.Info) r drv' eff :
  Driver.startLoggingInternal drv file info = (r, drv', eff) →
  Forall (λ e, is_logrus e = true) eff ∧
  match r with
  | inl _ => drv' = drv
  | inr lg =>
      Driver.loggers drv !! file = None ∧
      Driver.loggers drv' = <[file := lg]> (Driver.loggers drv) ∧
      fifo_OpenFifo file = inr (Driver.inputQueueFile lg)
  end.
Proof.
  unfold Driver.startLoggingInternal.
  destruct (Driver.loggers drv !! file) eqn:Hfile.
  { intros [= <- <- <-]. split; [constructor | done]. }
  destruct (fifo_OpenFifo file) as [e|f] eqn:Hfifo.
  { intros [= <- <- <-]. split; [constructor | done]. }
  pose proof (parseLogOptBoolean_logs info Driver.logOptGzipCompression
                Driver.defaultGzipCompression) as L1.
  pose proof (parseLogOptInt_logs info Driver.logOptGzipCompressionLevel
                Driver.defaultGzipCompressionLevel) as L2.
  pose proof (parseLogOptBoolean_logs info Driver.logOptInsecureSkipVerify
                Driver.defaultInsecureSkipVerify) as L4.
  pose proof (parseLogOptProxyUrl_logs info Driver.logOptProxyUrl None) as L5.
  pose proof (parseLogOptDuration_logs info Driver.logOptSendingInterval
                Driver.defaultSendingInterval) as L6.
  pose proof (parseLogOptInt_logs info Driver.logOptQueueSize Driver.defaultQueueSize) as L8.
  pose proof (parseLogOptInt_logs info Driver.logOptBatchSize Driver.defaultBatchSize) as L10.
  destruct (Driver.parseLogOptBoolean info Driver.logOptGzipCompression _) as [gz e1].
  destruct (Driver.parseLogOptInt info Driver.logOptGzipCompressionLevel _) as [level0 e2].
  destruct (Driver.parseLogOptBoolean info Driver.logOptInsecureSkipVerify _) as [skip e4].
  destruct (Driver.parseLogOptProxyUrl info Driver.logOptProxyUrl None) as [proxy e5].
  destruct (Driver.parseLogOptDuration info Driver.logOptSendingInterval _) as [interval0 e6].
  destruct (Driver.parseLogOptInt info Driver.logOptQueueSize _) as [queue0 e8].
  destruct (Driver.parseLogOptInt info Driver.logOptBatchSize _) as [batch0 e10].
  simpl in *.
  destruct ((level0 <? _) || (_ <? level0));
    destruct (interval0 <=? 0); destruct (queue0 <=? 0); destruct (batch0 <=? 0);
    (destruct (Driver.Config info !! Driver.logOptRootCaPath) as [path|];
       [destruct (ioutil_ReadFile path) as [e|pem]|]);
    intros [= <- <- <-]; simpl;
    (split;
     [repeat first [assumption | exact I | apply Forall_nil
                   | apply Forall_cons_2; [reflexivity|] | apply Forall_app_2]
     | done]).
Qed.

End RegistryRuns.

(** X16. A [StartLogging] that returns an error leaves the driver, its
    registry with it, as it was, starts no goroutine and closes no file.
    The error is one of three. The file has a logger already: nothing was
    opened and nothing logged. The fifo does not open: the error wraps
    the cause, and nothing was logged. Or the root CA file cannot be
    read: by then [fifo.OpenFifo] has returned the fifo of the file, and
    the call returns the error of the read without closing that fifo,
    which no logger of the registry holds either: it stays open. *)
Theorem StartLogging_error_cases `{Runtime} (drv drv' : Driver.sumoDriver)
    (file : string) (info : Driver.Info) (err : error)
    (eff : list Driver.driver_effect) :
  Driver.StartLogging drv file info = (Some err, drv', eff) →
  drv' = drv ∧
  Forall (λ e, is_logrus e = true) eff ∧
  ((is_Some (Driver.loggers drv !! file) ∧
    err = Errorf "a logger for %q already exists" [fmt_string file] ∧
    eff = [])
   ∨
   (Driver.loggers drv !! file = None ∧
    ∃ cause, fifo_OpenFifo file = inl cause ∧
      err = Wrapf cause "error opening logger fifo: %q" [fmt_string file] ∧
      eff = [])
   ∨
   (Driver.loggers drv !! file = None ∧
    ∃ inputQueueFile rootCaPath,
      fifo_OpenFifo file = inr inputQueueFile ∧
      Driver.Config info !! Driver.logOptRootCaPath = Some rootCaPath ∧
      ioutil_ReadFile rootCaPath = inl err ∧
      (Driver.CloseFile inputQueueFile ∉ eff) ∧
      Driver.loggers drv' !! file = None)).
Proof.
  unfold Driver.StartLogging.
  destruct (Driver.startLoggingInternal drv file info) as [[r drv1] eff1] eqn:Hstart.
  pose proof (startLoggingInternal_cases _ _ _ _ _ _ Hstart) as [Hlogs Hr].
  destruct r as [e|lg]; [|done]. intros [= <- <- <-]. subst drv1.
  split_and!; [done | done |].
  revert Hstart. unfold Driver.startLoggingInternal.
  destruct (Driver.loggers drv !! file) as [old|] eqn:Hfile.
  { intros [= <- <-]. left. split_and!; [by eexists | done | done]. }
  destruct (fifo_OpenFifo file) as [cause|f] eqn:Hfifo.
  { intros [= <- <-]. right. left. split; [done|]. by exists cause. }
  intros Hstart. right. right. split; [done|].
  destruct (Driver.Config info !! Driver.logOptRootCaPath) as [path|] eqn:Hpath.
  - destruct (ioutil_ReadFile path) as [e'|pem] eqn:Hread.
    + exists f, path. split_and!; [done | done | | | done].
      * revert Hstart.
        destruct (Driver.parseLogOptBoolean info Driver.logOptGzipCompression _) as [gz e1].
        destruct (Driver.parseLogOptInt info Driver.logOptGzipCompressionLevel _)
          as [level0 e2].
        destruct (Driver.parseLogOptBoolean info Driver.logOptInsecureSkipVerify _)
          as [skip e4].
        destruct ((level0 <? _) || (_ <? level0)); by intros [= <- _].
      * intros Hin. rewrite Forall_forall in Hlogs. by apply Hlogs in Hin.
    + exfalso. revert Hstart.
      destruct (Driver.parseLogOptBoolean info Driver.logOptGzipCompression _) as [gz e1].
      destruct (Driver.parseLogOptInt info Driver.logOptGzipCompressionLevel _)
        as [level0 e2].
      destruct (Driver.parseLogOptBoolean info Driver.logOptInsecureSkipVerify _)
        as [skip e4].
      destruct (Driver.parseLogOptProxyUrl info Driver.logOptProxyUrl None) as [proxy e5].
      destruct (Driver.parseLogOptDuration info Driver.logOptSendingInterval _)
        as [interval0 e6].
      destruct (Driver.parseLogOptInt info Driver.logOptQueueSize _) as [queue0 e8].
      destruct (Driver.parseLogOptInt info Driver.logOptBatchSize _) as [batch0 e10].
      by destruct ((level0 <? _) || (_ <? level0)), (interval0 <=? 0), (queue0 <=? 0),
        (batch0 <=? 0).
  - exfalso. revert Hstart.
    destruct (Driver.parseLogOptBoolean info Driver.logOptGzipCompression _) as [gz e1].
    destruct (Driver.parseLogOptInt info Driver.logOptGzipCompressionLevel _)
      as [level0 e2].
    destruct (Driver.parseLogOptBoolean info Driver.logOptInsecureSkipVerify _)
      as [skip e4].
    destruct (Driver.parseLogOptProxyUrl info Driver.logOptProxyUrl None) as [proxy e5].
    destruct (Driver.parseLogOptDuration info Driver.logOptSendingInterval _)
      as [interval0 e6].
    destruct (Driver.parseLogOptInt info Driver.logOptQueueSize _) as [queue0 e8].
    destruct (Driver.parseLogOptInt info Driver.logOptBatchSize _) as [batch0 e10].
    by destruct ((level0 <? _) || (_ <? level0)), (interval0 <=? 0), (queue0 <=? 0),
      (batch0 <=? 0).
Qed.

Lemma StartLogging_error_cases_witness :
  ∃ eff,
    @Driver.StartLogging sample_runtime Driver.newSumoDriver "/run/docker/logging/1f3a"
      sample_info_root_ca = (Some io_EOF, Driver.newSumoDriver, eff) ∧
    @fifo_OpenFifo sample_runtime "/run/docker/logging/1f3a" = inr 3%nat ∧
    Driver.CloseFile 3%nat ∉ eff.
Proof.
  remember (@Driver.StartLogging sample_runtime Driver.newSumoDriver
              "/run/docker/logging/1f3a" sample_info_root_ca) as X eqn:HX.
  assert (X.1.1 = Some io_EOF) as Herr by (rewrite HX; vm_compute; reflexivity).
  destruct X as [[err' drv'] eff]. simpl in Herr. subst err'. symmetry in HX.
  destruct (@StartLogging_error_cases sample_runtime _ _ _ _ _ _ HX)
    as (-> & _ & [(Hdup & _) | [(_ & cause & Hfifo & _) | (_ & f & path & Hfifo & _ & _ & Hopen & _)]]).
  - destruct Hdup as [old Hold]. simpl in Hold. by rewrite lookup_empty in Hold.
  - discriminate Hfifo.
  - exists eff. split_and!; [done | done |]. by injection Hfifo as <-.
Defined.

(** X17. A [StartLogging] that returns [nil]: the file had no logger; the
    registry now maps it to the new logger, which reads the fifo opened
    for the file, and every other entry is as before; the two goroutines
    are started, on that logger, after everything else; and the options
    of the logger are validated: a positive batch size, queue size and
    sending interval, and a gzip level between -1 and 9. *)
Theorem StartLogging_success `{Runtime} (drv drv' : Driver.sumoDriver)
    (file : string) (info : Driver.Info) (eff : list Driver.driver_effect) :
  Driver.StartLogging drv file info = (None, drv', eff) →
  ∃ lg logs,
    Driver.loggers drv !! file = None ∧
    Driver.loggers drv' = <[file := lg]> (Driver.loggers drv) ∧
    fifo_OpenFifo file = inr (Driver.inputQueueFile lg) ∧
    eff = logs ++ [Driver.Go_consumeLogsFromFile lg; Driver.Go_queueLogsForSending lg] ∧
    Forall (λ e, is_logrus e = true) logs ∧
    0 < Driver.batchSize lg ∧ 0 < Driver.logQueue lg ∧ 0 < Driver.sendingInterval lg ∧
    Driver.gzip_DefaultCompression ≤ Driver.gzipCompressionLevel lg
      ≤ Driver.gzip_BestCompression.
Proof.
  unfold Driver.StartLogging.
  destruct (Driver.startLoggingInternal drv file info) as [[r drv1] eff1] eqn:Hstart.
  destruct r as [e|lg]; [done|]. intros [= <- <-].
  pose proof (startLoggingInternal_cases _ _ _ _ _ _ Hstart) as (Hlogs & Hnone & Hreg & Hfifo).
  pose proof (startLoggingInternal_validated _ _ _ _ _ _ Hstart) as (_ & _ & Hb & Hq & Hs & Hl).
  exists lg, eff1. split_and!; first [done | lia].
Qed.

Lemma StartLogging_success_witness :
  ∃ lg,
    Driver.loggers
      (@Driver.StartLogging sample_runtime Driver.newSumoDriver "/run/docker/logging/1f3a"
         sample_info).1.2 = <["/run/docker/logging/1f3a" := lg]> ∅ ∧
    0 < Driver.batchSize lg.
Proof.
  remember (@Driver.StartLogging sample_runtime Driver.newSumoDriver
              "/run/docker/logging/1f3a" sample_info) as X eqn:HX.
  assert (X.1.1 = None) as Hnil by (rewrite HX; vm_compute; reflexivity).
  destruct X as [[[err|] drv'] eff]; [discriminate|]. symmetry in HX.
  destruct (@StartLogging_success sample_runtime _ _ _ _ _ HX)
    as (lg & logs & _ & Hreg & _ & _ & _ & Hb & _).
  exists lg. split; [exact Hreg | exact Hb].
Defined.

(** X18. Starting a logger and stopping it again gives back the driver
    from before, and the file that is closed is the fifo that was opened
    for the logger. *)
Theorem StartLogging_then_StopLogging `{Runtime} (drv drv' : Driver.sumoDriver)
    (file : string) (info : Driver.Info) (eff : list Driver.driver_effect) :
  Driver.StartLogging drv file info = (None, drv', eff) →
  ∃ f, fifo_OpenFifo file = inr f ∧
    Driver.StopLogging drv' file = (None, drv, [Driver.CloseFile f]).
Proof.
  unfold Driver.StartLogging.
  destruct (Driver.startLoggingInternal drv file info) as [[r drv1] eff1] eqn:Hstart.
  destruct r as [e|lg]; [done|]. intros [= <- <-].
  apply startLoggingInternal_cases in Hstart as (_ & Hnone & Hreg & Hfifo).
  exists (Driver.inputQueueFile lg). split; [done|].
  unfold Driver.StopLogging. rewrite Hreg, lookup_insert_eq.
  rewrite delete_insert_id by done. by destruct drv.
Qed.

Lemma StartLogging_then_StopLogging_witness :
  Driver.StopLogging
    (@Driver.StartLogging sample_runtime Driver.newSumoDriver "/run/docker/logging/1f3a"
       sample_info).1.2
    "/run/docker/logging/1f3a" = (None, Driver.newSumoDriver, [Driver.CloseFile 3%nat]).
Proof.
  remember (@Driver.StartLogging sample_runtime Driver.newSumoDriver
              "/run/docker/logging/1f3a" sample_info) as X eqn:HX.
  assert (X.1.1 = None) as Hnil by (rewrite HX; vm_compute; reflexivity).
  destruct X as [[[err|] drv'] eff]; [discriminate|]. symmetry in HX.
  destruct (@StartLogging_then_StopLogging sample_runtime _ _ _ _ _ HX)
    as (f & Hfifo & Hstop).
  simpl. rewrite Hstop. by injection Hfifo as <-.
Defined.

(** X19. Neither [StartLogging] nor [StopLogging] for a file touches the
    logger of another file. *)
Theorem StartLogging_StopLogging_other_files `{Runtime} (drv : Driver.sumoDriver)
    (file other : string) (info : Driver.Info) :
  other ≠ file →
  Driver.loggers (Driver.StartLogging drv file info).1.2 !! other
    = Driver.loggers drv !! other
  ∧
  Driver.loggers (Driver.StopLogging drv file).1.2 !! other
    = Driver.loggers drv !! other.
Proof.
  intros Hne. split.
  - unfold Driver.StartLogging.
    destruct (Driver.startLoggingInternal drv file info) as [[r drv1] eff1] eqn:Hstart.
    apply startLoggingInternal_cases in Hstart as [_ Hr].
    destruct r as [e|lg]; simpl.
    + by rewrite Hr.
    + destruct Hr as (_ & -> & _). by rewrite lookup_insert_ne.
  - unfold Driver.StopLogging.
    destruct (Driver.loggers drv !! file); simpl; [|done].
    by rewrite lookup_delete_ne.
Qed.

Lemma StartLogging_StopLogging_other_files_witness :
  Driver.loggers
    (@Driver.StartLogging sample_runtime sample_driver "/run/docker/logging/77c0"
       sample_info).1.2 !! "/run/docker/logging/1f3a" = Some sample_driver_logger.
Proof.
  destruct (@StartLogging_StopLogging_other_files sample_runtime sample_driver
              "/run/docker/logging/77c0" "/run/docker/logging/1f3a" sample_info)
    as [Hstart _]; [done|].
  rewrite Hstart. apply lookup_singleton_eq.
Defined.

(** X20. [StopLogging] is idempotent: after it the file has no logger, so
    a second call does nothing; and a [StartLogging] for the file is not
    refused as a duplicate: with a fifo that opens and no root CA to
    read, it returns [nil]. *)
Theorem StopLogging_twice `{Runtime} (drv : Driver.sumoDriver) (file : string)
    (info : Driver.Info) :
  let drv1 := (Driver.StopLogging drv file).1.2 in
  Driver.loggers drv1 !! file = None ∧
  Driver.StopLogging drv1 file = (None, drv1, []) ∧
  (∀ f, fifo_OpenFifo file = inr f →
        Driver.Config info !! Driver.logOptRootCaPath = None →
        (Driver.StartLogging drv1 file info).1.1 = None).
Proof.
  intros drv1.
  assert (Driver.loggers drv1 !! file = None) as Hgone.
  { unfold drv1, Driver.StopLogging.
    destruct (Driver.loggers drv !! file) eqn:Hfile; simpl; [|done].
    apply lookup_delete_eq. }
  split_and!; [done | |].
  - unfold Driver.StopLogging at 1. by rewrite Hgone.
  - intros f Hfifo Hca. unfold Driver.StartLogging, Driver.startLoggingInternal.
    rewrite Hgone, Hfifo, Hca.
    destruct (Driver.parseLogOptBoolean info Driver.logOptGzipCompression _) as [gz e1].
    destruct (Driver.parseLogOptInt info Driver.logOptGzipCompressionLevel _) as [level0 e2].
    destruct (Driver.parseLogOptBoolean info Driver.logOptInsecureSkipVerify _) as [skip e4].
    destruct (Driver.parseLogOptProxyUrl info Driver.logOptProxyUrl None) as [proxy e5].
    destruct (Driver.parseLogOptDuration info Driver.logOptSendingInterval _) as [interval0 e6].
    destruct (Driver.parseLogOptInt info Driver.logOptQueueSize _) as [queue0 e8].
    destruct (Driver.parseLogOptInt info Driver.logOptBatchSize _) as [batch0 e10].
    by destruct ((level0 <? _) || (_ <? level0)), (interval0 <=? 0), (queue0 <=? 0),
      (batch0 <=? 0).
Qed.

Lemma StopLogging_twice_witness :
  (@Driver.StartLogging sample_runtime
     (Driver.StopLogging sample_driver "/run/docker/logging/1f3a").1.2
     "/run/docker/logging/1f3a" sample_info).1.1 = None.
Proof.
  destruct (@StopLogging_twice sample_runtime sample_driver "/run/docker/logging/1f3a"
              sample_info) as (_ & _ & Hrestart).
  apply (Hrestart 3%nat); reflexivity.
Defined.

(** ** The sending loop of [src/driver.go] *)

Section DriverSendLogs.
Context `{Runtime}.
Import DriverLoop.

Variable l : Driver.sumoLogger.
Variable answers : nat → response.
Hypothesis batch_pos : 0 < Driver.batchSize l.

Lemma delivered_app (a b : list call) : delivered (a ++ b) = delivered a ++ delivered b.
Proof. unfold delivered. by rewrite map_app, concat_app. Qed.

(** One turn of the loop at an index inside the logs: the call gets the
    next [batchSize] logs, or those that are left. *)
Lemma sendLogsFrom_step (fuel : nat) (logs : list sumoLog) (i : Z) (k : nat) :
  0 ≤ i < GoInt.len logs →
  GoInt.len logs + Driver.batchSize l ≤ GoInt.max_int →
  sendLogsFrom (S fuel) l answers logs i k =
    let rest := drop (Z.to_nat i) logs in
    let logsChunk := take (Z.to_nat (Driver.batchSize l)) rest in
    let '(eff, err) := Driver.makePostRequest l logsChunk (answers k) in
    match err with
    | Some e =>
        Done ([{| chunk := logsChunk; requests := eff; result := Some e |}], rest,
              (k + length eff)%nat)
    | None =>
        match sendLogsFrom fuel l answers logs (i + Driver.batchSize l)
                (k + length eff)%nat with
        | Done (cs, failedLogs, k') =>
            Done ({| chunk := logsChunk; requests := eff; result := None |} :: cs,
                  failedLogs, k')
        | Panic => Panic
        | NoFuel => NoFuel
        end
    end.
Proof.
  intros [Hi Hlt] Hmax. simpl. unfold GoInt.len in *.
  set (rest := drop (Z.to_nat i) logs).
  assert (length rest = length logs - Z.to_nat i)%nat as Hrest
    by (unfold rest; apply length_drop).
  replace (i <? Z.of_nat (length logs)) with true by (symmetry; apply Z.ltb_lt; lia).
  assert (GoInt.add i (Driver.batchSize l) = i + Driver.batchSize l) as ->.
  { unfold GoInt.add. apply wrap_small.
    unfold GoInt.min_int, GoInt.max_int in *. lia. }
  set (bs := Z.to_nat (Driver.batchSize l)).
  assert (slice logs i
            (if Z.of_nat (length logs) <? i + Driver.batchSize l
             then Z.of_nat (length logs) else i + Driver.batchSize l)
          = Some (take bs rest)) as ->.
  { unfold slice, GoInt.len. fold rest.
    destruct (Z.of_nat (length logs) <? i + Driver.batchSize l) eqn:Hclamp.
    - apply Z.ltb_lt in Hclamp.
      replace ((0 <=? i) && (i <=? Z.of_nat (length logs))
               && (Z.of_nat (length logs) <=? Z.of_nat (length logs))) with true
        by (symmetry; rewrite !andb_true_iff, !Z.leb_le; lia).
      f_equal. rewrite !take_ge; [done | unfold bs; lia | lia].
    - apply Z.ltb_ge in Hclamp.
      replace ((0 <=? i) && (i <=? i + Driver.batchSize l)
               && (i + Driver.batchSize l <=? Z.of_nat (length logs))) with true
        by (symmetry; rewrite !andb_true_iff, !Z.leb_le; lia).
      f_equal. f_equal. unfold bs. lia. }
  assert (slice logs i (Z.of_nat (length logs)) = Some rest) as ->; [|done].
  unfold slice, GoInt.len. fold rest.
  replace ((0 <=? i) && (i <=? Z.of_nat (length logs))
           && (Z.of_nat (length logs) <=? Z.of_nat (length logs))) with true
    by (symmetry; rewrite !andb_true_iff, !Z.leb_le; lia).
  f_equal. apply take_ge. lia.
Qed.

Lemma sendLogsFrom_end (fuel : nat) (logs : list sumoLog) (i : Z) (k : nat) :
  GoInt.len logs ≤ i →
  sendLogsFrom (S fuel) l answers logs i k = Done ([], [], k).
Proof.
  intros Hge. simpl.
  by replace (i <? GoInt.len logs) with false by (symmetry; apply Z.ltb_ge; lia).
Qed.

(** From index [i] on, [sendLogs] returns: the logs of the calls that
    succeeded followed by the failed logs are the logs from [i] on; every
    call was given between one and [batchSize] logs; and no log is
    returned as failed exactly when every call succeeded. *)
Lemma sendLogsFrom_ok (fuel : nat) (logs : list sumoLog) (i : Z) (k : nat) :
  0 ≤ i →
  GoInt.len logs + Driver.batchSize l ≤ GoInt.max_int →
  (length (drop (Z.to_nat i) logs) < fuel)%nat →
  ∃ cs failed k',
    sendLogsFrom fuel l answers logs i k = Done (cs, failed, k') ∧
    delivered cs ++ failed = drop (Z.to_nat i) logs ∧
    Forall (λ c, chunk c ≠ [] ∧ GoInt.len (chunk c) ≤ Driver.batchSize l) cs ∧
    (failed = [] ↔ Forall (λ c, result c = None) cs).
Proof.
  intros Hi Hmax. revert i k Hi.
  induction fuel as [|fuel IH]; intros i k Hi Hfuel; [lia|].
  destruct (decide (i < GoInt.len logs)) as [Hlt|Hge].
  - rewrite sendLogsFrom_step by done. cbv zeta.
    set (rest := drop (Z.to_nat i) logs) in *.
    set (bs := Z.to_nat (Driver.batchSize l)).
    assert (length rest = length logs - Z.to_nat i)%nat as Hrest
      by (unfold rest; apply length_drop).
    unfold GoInt.len in *.
    assert (take bs rest ≠ []) as Hne.
    { destruct rest as [|x rest']; [simpl in Hrest; lia|].
      assert (0 < bs)%nat as Hbs by (unfold bs; lia).
      destruct bs; [lia | done]. }
    assert (Z.of_nat (length (take bs rest)) ≤ Driver.batchSize l) as Hlen.
    { rewrite length_take. unfold bs. lia. }
    destruct (Driver.makePostRequest l (take bs rest) (answers k)) as [eff [e|]].
    + eexists _, _, _. split; [done|]. split_and!.
      * done.
      * by repeat constructor.
      * split.
        -- intros Hnil. rewrite Hnil in Hrest. simpl in Hrest. lia.
        -- intros Hall. rewrite Forall_singleton in Hall. simpl in Hall. done.
    + destruct (IH (i + Driver.batchSize l) (k + length eff)%nat)
        as (cs & failed & k' & Hrun & Hcons & Hchunks & Hiff); [lia | |].
      { replace (Z.to_nat (i + Driver.batchSize l)) with (Z.to_nat i + bs)%nat
          by (unfold bs; lia).
        rewrite <- drop_drop. fold rest. rewrite length_drop.
        assert (0 < bs)%nat by (unfold bs; lia). lia. }
      rewrite Hrun. eexists _, _, _. split; [done|]. split_and!.
      * unfold delivered in *. simpl. rewrite <- app_assoc, Hcons.
        replace (Z.to_nat (i + Driver.batchSize l)) with (Z.to_nat i + bs)%nat
          by (unfold bs; lia).
        rewrite <- drop_drop. fold rest. apply take_drop.
      * by constructor.
      * rewrite Hiff. split; [by constructor | by intros [_ ?]%Forall_cons].
  - rewrite sendLogsFrom_end by lia. eexists _, _, _. split; [done|].
    split_and!; [|constructor|done].
    simpl. symmetry. apply drop_ge. unfold GoInt.len in *. lia.
Qed.

(** Logs that fit into one batch go out in one call. *)
Lemma sendLogs_one_call (logs : list sumoLog) (k : nat) :
  logs ≠ [] →
  GoInt.len logs ≤ Driver.batchSize l →
  GoInt.len logs + Driver.batchSize l ≤ GoInt.max_int →
  sendLogs l answers logs k =
    let '(eff, err) := Driver.makePostRequest l logs (answers k) in
    Done ([{| chunk := logs; requests := eff; result := err |}],
          match err with Some _ => logs | None => [] end,
          (k + length eff)%nat).
Proof.
  intros Hne Hfit Hmax. unfold sendLogs.
  assert (0 < GoInt.len logs) as Hpos
    by (unfold GoInt.len; destruct logs; [done | simpl; lia]).
  rewrite sendLogsFrom_step by (done || lia).
  cbv zeta. change (Z.to_nat 0) with 0%nat. rewrite drop_0.
  rewrite take_ge by (unfold GoInt.len in *; lia).
  destruct (Driver.makePostRequest l logs (answers k)) as [eff [e|]]; [done|].
  destruct logs as [|x logs]; [done|].
  change (length (x :: logs)) with (S (length logs)).
  by rewrite sendLogsFrom_end by lia.
Qed.

End DriverSendLogs.

Section DriverQueueLoop.
Context `{Runtime}.
Import DriverLoop.

Variable l : Driver.sumoLogger.
Variable answers : nat → response.
Hypothesis batch_pos : 0 < Driver.batchSize l.

Local Abbreviation queue_state_inv := (queue_state_inv l).

Lemma queue_state_inv_len (received : list sumoLog) (st : state) :
  queue_state_inv received st → GoInt.len (logs st) ≤ GoInt.len received.
Proof.
  intros [<- _]. unfold GoInt.len. rewrite length_app. lia.
Qed.

Lemma flush_ok (received : list sumoLog) (st : state) :
  queue_state_inv received st →
  GoInt.len received + Driver.batchSize l ≤ GoInt.max_int →
  ∃ st', flush l answers st = Done st' ∧ queue_state_inv received st'.
Proof.
  intros Hinv Hmax. pose proof (queue_state_inv_len _ _ Hinv) as Hlen.
  destruct Hinv as [Hrec Hchunks].
  destruct (sendLogsFrom_ok l answers batch_pos (S (length (logs st))) (logs st) 0 (made st))
    as (cs & failed & k' & Hrun & Hcons & Hcs & _);
    [lia | lia | rewrite length_drop; lia |].
  change (Z.to_nat 0) with 0%nat in Hcons. rewrite drop_0 in Hcons.
  unfold flush, sendLogs. rewrite Hrun. eexists. split; [done|].
  split; simpl.
  - rewrite delivered_app, <- app_assoc, Hcons. simpl. done.
  - by apply Forall_app.
Qed.

Lemma queueStep_ok (received : list sumoLog) (st : state) (i : input) :
  queue_state_inv received st →
  GoInt.len (received ++ records [i]) + Driver.batchSize l ≤ GoInt.max_int →
  ∃ st', queueStep l answers st i = Done st' ∧
    queue_state_inv (received ++ records [i]) st'.
Proof.
  intros Hinv Hmax. destruct i as [|log]; simpl in *.
  - rewrite app_nil_r in *. by apply flush_ok.
  - replace (Driver.batchSize l =? 0) with false by (symmetry; apply Z.eqb_neq; lia).
    assert (queue_state_inv (received ++ [log])
              {| logs := logs st ++ [log]; made := made st; calls := calls st |}) as Hinv'.
    { destruct Hinv as [<- Hchunks]. split; simpl; [by rewrite app_assoc | done]. }
    destruct (Z.rem _ _ =? 0); [by apply flush_ok | by eexists].
Qed.

Lemma queueLoop_ok (ins : list input) (received : list sumoLog) (st : state) :
  queue_state_inv received st →
  GoInt.len (received ++ records ins) + Driver.batchSize l ≤ GoInt.max_int →
  ∃ st', queueLoop l answers ins st = Done st' ∧
    queue_state_inv (received ++ records ins) st'.
Proof.
  revert received st. induction ins as [|i ins IH]; intros received st Hinv Hmax.
  - exists st. simpl. by rewrite app_nil_r.
  - assert (records (i :: ins) = records [i] ++ records ins) as Hsplit
      by (destruct i; done).
    rewrite Hsplit, app_assoc in *.
    destruct (queueStep_ok received st i Hinv) as (st1 & Hstep & Hinv1).
    { unfold GoInt.len in *. rewrite !length_app in *. lia. }
    destruct (IH _ st1 Hinv1 Hmax) as (st2 & Hloop & Hinv2).
    exists st2. simpl. by rewrite Hstep.
Qed.

(** Fewer records than a batch holds stay in [logs] until a flush. *)
Lemma queueLoop_below_batch (rs : list sumoLog) (st : state) :
  GoInt.len (logs st ++ rs) < Driver.batchSize l →
  queueLoop l answers (map Log rs) st =
    Done {| logs := logs st ++ rs; made := made st; calls := calls st |}.
Proof.
  revert st. induction rs as [|r rs IH]; intros st Hlen.
  - simpl. rewrite app_nil_r. by destruct st.
  - simpl.
    replace (Driver.batchSize l =? 0) with false by (symmetry; apply Z.eqb_neq; lia).
    unfold GoInt.len in *. rewrite !length_app in *. simpl in *.
    rewrite Z.rem_small by lia.
    replace (Z.of_nat (length (logs st) + 1) =? 0) with false
      by (symmetry; apply Z.eqb_neq; lia).
    rewrite IH; simpl.
    + by rewrite <- app_assoc.
    + rewrite !length_app. simpl. lia.
Qed.

End DriverQueueLoop.

(** X21. [sendLogs] of [src/driver.go] with a positive batch size
    returns. The logs of the calls of [makePostRequest] that returned
    [nil], in order, followed by the returned failed logs, are the logs
    it was given: nothing is lost, repeated or reordered. Every call was
    given at least one and at most [batchSize] logs, and the failed logs
    are empty exactly when every call returned [nil]. *)
Theorem sendLogs_driver_conserves `{Runtime} (l : Driver.sumoLogger)
    (answers : nat → response) (logs : list sumoLog) (k : nat) :
  0 < Driver.batchSize l →
  GoInt.len logs + Driver.batchSize l ≤ GoInt.max_int →
  ∃ cs failed k',
    DriverLoop.sendLogs l answers logs k = DriverLoop.Done (cs, failed, k') ∧
    DriverLoop.delivered cs ++ failed = logs ∧
    Forall (λ c, DriverLoop.chunk c ≠ [] ∧
                 GoInt.len (DriverLoop.chunk c) ≤ Driver.batchSize l) cs ∧
    (failed = [] ↔ Forall (λ c, DriverLoop.result c = None) cs).
Proof.
  intros Hpos Hmax.
  destruct (sendLogsFrom_ok l answers Hpos (S (length logs)) logs 0 k)
    as (cs & failed & k' & Hrun & Hcons & Hchunks & Hiff);
    [lia | done | rewrite length_drop; lia |].
  change (Z.to_nat 0) with 0%nat in Hcons. rewrite drop_0 in Hcons.
  by exists cs, failed, k'.
Qed.

Lemma sendLogs_driver_conserves_witness :
  ∃ cs failed k',
    @DriverLoop.sendLogs sample_runtime sample_driver_logger (λ _, answer_200)
      three_records 0 = DriverLoop.Done (cs, failed, k') ∧
    DriverLoop.delivered cs ++ failed = three_records.
Proof.
  destruct (@sendLogs_driver_conserves sample_runtime sample_driver_logger
              (λ _, answer_200) three_records 0%nat)
    as (cs & failed & k' & Hrun & Hcons & _).
  - reflexivity.
  - vm_compute. discriminate.
  - exists cs, failed, k'. split; [exact Hrun | exact Hcons].
Defined.

(** X22. [sendLogs] of [src/driver.go] with a batch size that is not
    positive and logs to send never returns: with a batch size of zero
    the index never moves, and the loop calls [makePostRequest] on no
    logs for ever; with a negative one the first slice is out of bounds
    and the call panics. *)
Theorem sendLogs_driver_needs_positive_batch `{Runtime} (l : Driver.sumoLogger)
    (answers : nat → response) (logs : list sumoLog) (k : nat) (fuel : nat) :
  logs ≠ [] →
  GoInt.min_int ≤ Driver.batchSize l ≤ 0 →
  DriverLoop.sendLogsFrom fuel l answers logs 0 k =
    if decide (Driver.batchSize l = 0) then DriverLoop.NoFuel
    else match fuel with O => DriverLoop.NoFuel | S _ => DriverLoop.Panic end.
Proof.
  intros Hne Hbs.
  assert (0 < GoInt.len logs) as Hpos
    by (unfold GoInt.len; destruct logs; [done | simpl; lia]).
  assert (GoInt.add 0 (Driver.batchSize l) = Driver.batchSize l) as Hadd.
  { unfold GoInt.add. apply wrap_small.
    unfold GoInt.min_int, GoInt.max_int in *. lia. }
  case_decide as Hzero.
  - revert k. induction fuel as [|fuel IH]; intros k; [done|]. simpl.
    replace (0 <? GoInt.len logs) with true by (symmetry; apply Z.ltb_lt; lia).
    rewrite Hadd, Hzero.
    replace (GoInt.len logs <? 0) with false by (symmetry; apply Z.ltb_ge; lia).
    unfold DriverLoop.slice.
    replace ((0 <=? 0) && (0 <=? 0) && (0 <=? GoInt.len logs)) with true
      by (symmetry; rewrite !andb_true_iff, !Z.leb_le; lia).
    simpl. by rewrite IH.
  - destruct fuel as [|fuel]; [done|]. simpl.
    replace (0 <? GoInt.len logs) with true by (symmetry; apply Z.ltb_lt; lia).
    rewrite Hadd.
    replace (GoInt.len logs <? Driver.batchSize l) with false
      by (symmetry; apply Z.ltb_ge; lia).
    unfold DriverLoop.slice.
    replace (0 <=? Driver.batchSize l) with false by (symmetry; apply Z.leb_gt; lia).
    done.
Qed.

(** X23. [queueLogsForSending] with a positive batch size returns,
    whatever the records, the ticks and the answers of the endpoint. The
    logs delivered, in the order of the calls, followed by the logs of
    the last, closing flush that failed, are the records received in
    arrival order: a record is never delivered twice or out of order, and
    the only records not delivered are those still held when the closing
    flush fails, which is not retried. Every call carried between one
    and [batchSize] logs. *)
Theorem queueLogsForSending_conserves `{Runtime} (l : Driver.sumoLogger)
    (answers : nat → response) (ins : list DriverLoop.input) :
  0 < Driver.batchSize l →
  GoInt.len (DriverLoop.records ins) + Driver.batchSize l ≤ GoInt.max_int →
  ∃ st,
    DriverLoop.queueLogsForSending l answers ins = DriverLoop.Done st ∧
    DriverLoop.delivered (DriverLoop.calls st) ++ DriverLoop.logs st
      = DriverLoop.records ins ∧
    Forall (λ c, DriverLoop.chunk c ≠ [] ∧
                 GoInt.len (DriverLoop.chunk c) ≤ Driver.batchSize l)
      (DriverLoop.calls st).
Proof.
  intros Hpos Hmax.
  destruct (queueLoop_ok l answers Hpos ins [] DriverLoop.state_init)
    as (st1 & Hloop & Hinv1); [by split | done |].
  destruct (flush_ok l answers Hpos _ st1 Hinv1) as (st2 & Hflush & Hrec & Hchunks);
    [done|].
  exists st2. unfold DriverLoop.queueLogsForSending. rewrite Hloop. done.
Qed.

Lemma queueLogsForSending_conserves_witness :
  ∃ st,
    @DriverLoop.queueLogsForSending sample_runtime sample_driver_logger
      (λ k, if decide (k = 0%nat) then answer_500 else answer_200)
      (map DriverLoop.Log three_records ++ [DriverLoop.Tick]) = DriverLoop.Done st ∧
    DriverLoop.delivered (DriverLoop.calls st) ++ DriverLoop.logs st = three_records.
Proof.
  destruct (@queueLogsForSending_conserves sample_runtime sample_driver_logger
              (λ k, if decide (k = 0%nat) then answer_500 else answer_200)
              (map DriverLoop.Log three_records ++ [DriverLoop.Tick]))
    as (st & Hrun & Hcons & _).
  - reflexivity.
  - vm_compute. discriminate.
  - exists st. split; [exact Hrun | exact Hcons].
Defined.

(** Fewer records than a batch holds, then one flush: one call of
    [makePostRequest] with all of them. *)
Lemma queueLoop_flush_below_batch `{Runtime} (l : Driver.sumoLogger)
    (answers : nat → response) (rs : list sumoLog) :
  rs ≠ [] →
  GoInt.len rs < Driver.batchSize l →
  GoInt.len rs + Driver.batchSize l ≤ GoInt.max_int →
  let flushed :=
    let '(eff, err) := Driver.makePostRequest l rs (answers 0%nat) in
    DriverLoop.Done
      {| DriverLoop.logs := match err with Some _ => rs | None => [] end;
         DriverLoop.made := length eff;
         DriverLoop.calls :=
           [{| DriverLoop.chunk := rs; DriverLoop.requests := eff;
               DriverLoop.result := err |}] |} in
  DriverLoop.queueLoop l answers (map DriverLoop.Log rs ++ [DriverLoop.Tick])
    DriverLoop.state_init = flushed
  ∧
  DriverLoop.queueLogsForSending l answers (map DriverLoop.Log rs) = flushed.
Proof.
  intros Hne Hlen Hmax flushed.
  assert (0 < Driver.batchSize l) as Hpos by (pose proof (len_nonneg rs); lia).
  assert (DriverLoop.flush l answers
            {| DriverLoop.logs := rs; DriverLoop.made := 0; DriverLoop.calls := [] |}
          = flushed) as Hflush.
  { unfold DriverLoop.flush, flushed. simpl.
    rewrite (sendLogs_one_call l answers Hpos) by (done || lia).
    by destruct (Driver.makePostRequest l rs (answers 0%nat)) as [eff err]. }
  pose proof (queueLoop_below_batch l answers Hpos rs DriverLoop.state_init Hlen) as Hloop.
  simpl in Hloop. split.
  - assert (∀ a b st, DriverLoop.queueLoop l answers (a ++ b) st =
              match DriverLoop.queueLoop l answers a st with
              | DriverLoop.Done st' => DriverLoop.queueLoop l answers b st'
              | DriverLoop.Panic => DriverLoop.Panic
              | DriverLoop.NoFuel => DriverLoop.NoFuel
              end) as Happ.
    { intros a b. induction a as [|i a IH]; intros st; simpl; [done|].
      destruct (DriverLoop.queueStep l answers st i); [apply IH | done | done]. }
    rewrite Happ, Hloop. simpl. rewrite Hflush.
    unfold flushed. by destruct (Driver.makePostRequest l rs (answers 0%nat)).
  - unfold DriverLoop.queueLogsForSending. by rewrite Hloop.
Qed.

(** X24. In [src/driver.go] the batch size counts records. Fewer records
    than a batch holds, then one flush, by a tick or by the closing of
    the record queue: one call of [makePostRequest], with all the records
    in arrival order. After the tick the records are still held if the
    call failed and gone if it returned [nil]. *)
Theorem queueLogsForSending_single_flush `{Runtime} (l : Driver.sumoLogger)
    (answers : nat → response) (rs : list sumoLog) :
  rs ≠ [] →
  GoInt.len rs < Driver.batchSize l →
  GoInt.len rs + Driver.batchSize l ≤ GoInt.max_int →
  let flushed :=
    let '(eff, err) := Driver.makePostRequest l rs (answers 0%nat) in
    DriverLoop.Done
      {| DriverLoop.logs := match err with Some _ => rs | None => [] end;
         DriverLoop.made := length eff;
         DriverLoop.calls :=
           [{| DriverLoop.chunk := rs; DriverLoop.requests := eff;
               DriverLoop.result := err |}] |} in
  DriverLoop.queueLoop l answers (map DriverLoop.Log rs ++ [DriverLoop.Tick])
    DriverLoop.state_init = flushed
  ∧
  DriverLoop.queueLogsForSending l answers (map DriverLoop.Log rs) = flushed.
Proof.
  intros Hne Hlen Hmax. by apply queueLoop_flush_below_batch.
Qed.

Lemma queueLogsForSending_single_flush_witness :
  DriverLoop.calls <$>
    (match @DriverLoop.queueLogsForSending sample_runtime sample_driver_logger
             (λ _, answer_200) (map DriverLoop.Log three_records) with
     | DriverLoop.Done st => Some st
     | _ => None
     end) =
  Some [ {| DriverLoop.chunk := three_records;
            DriverLoop.requests :=
              (@Driver.makePostRequest sample_runtime sample_driver_logger
                 three_records answer_200).1;
            DriverLoop.result := None |} ].
Proof.
  destruct (@queueLogsForSending_single_flush sample_runtime sample_driver_logger
              (λ _, answer_200) three_records) as [_ Hclose].
  - discriminate.
  - reflexivity.
  - vm_compute. discriminate.
  - rewrite Hclose. reflexivity.
Defined.

Lemma sendLogs_driver_needs_positive_batch_witness :
  @DriverLoop.sendLogsFrom sample_runtime 1000 zero_batch_logger (λ _, answer_200)
    three_records 0 0 = DriverLoop.NoFuel.
Proof.
  rewrite (@sendLogs_driver_needs_positive_batch sample_runtime zero_batch_logger).
  - reflexivity.
  - discriminate.
  - vm_compute. split; discriminate.
Defined.

(** X25. [makePostRequest] makes at most one request. It returns [nil] in
    two cases only: it was given no logs, and then it made no request; or
    it made its request and the answer had status 200. *)
Theorem makePostRequest_outcome `{Runtime} (l : Driver.sumoLogger)
    (logs : list sumoLog) (resp : response) :
  (length (Driver.makePostRequest l logs resp).1 ≤ 1)%nat ∧
  ((Driver.makePostRequest l logs resp).2 = None ↔
   (logs = [] ∧ (Driver.makePostRequest l logs resp).1 = []) ∨
   (logs ≠ [] ∧ length (Driver.makePostRequest l logs resp).1 = 1%nat ∧
    Batching.is_success resp = true)).
Proof.
  unfold Driver.makePostRequest.
  destruct logs as [|log logs].
  { simpl. split; [lia|]. split; [by left | done]. }
  rewrite decide_False by (unfold GoInt.len; simpl; lia).
  destruct (if Driver.gzipCompression l then _ else _) as [e|body].
  { simpl. split; [lia|]. split; [done|]. intros [[? _] | (_ & ? & _)]; done. }
  destruct (http_NewRequest _ _ body) as [e|req].
  { simpl. split; [lia|]. split; [done|]. intros [[? _] | (_ & ? & _)]; done. }
  destruct resp as [e|code status [e|b]]; simpl.
  - split; [lia|]. split; [done|]. intros [[? _] | (_ & _ & ?)]; done.
  - case_decide as Hcode; simpl.
    + split; [lia|]. split; [done|].
      intros [[? _] | (_ & _ & Hok)]; [done|]. by apply bool_decide_eq_true in Hok.
    + split; [lia|]. split; [|done]. intros _. right.
      split_and!; [done | done |]. apply bool_decide_eq_true.
      by destruct (decide (code = http_StatusOK)).
  - case_decide as Hcode; simpl.
    + split; [lia|]. split; [done|].
      intros [[? _] | (_ & _ & Hok)]; [done|]. by apply bool_decide_eq_true in Hok.
    + split; [lia|]. split; [|done]. intros _. right.
      split_and!; [done | done |]. apply bool_decide_eq_true.
      by destruct (decide (code = http_StatusOK)).
Qed.

(** ** One flush, one batch: the two batchers *)

(** C6. A non-empty sequence of records, then one flush, by the ticker or
    by the closing of the record queue, yields one batch with all the
    records in arrival order when the sequence stays within the batch
    size in the unit the batcher counts. [batchLogs] of the second source
    counts bytes: a cumulative payload size within the threshold gives one
    hand-off to the batch queue. [queueLogsForSending] of [src/driver.go]
    counts records: fewer records than the batch size give one call of
    [makePostRequest]; there the payload size plays no part. *)
Theorem single_flush_one_batch `{Runtime} (bl : Batching.sumoLogger)
    (dl : Driver.sumoLogger) (answers : nat → response) (rs : list sumoLog) :
  rs ≠ [] →
  ((0 < Batching.logBatchQueueCap bl)%nat →
   Batching.batchSize bl ≤ GoInt.max_int32 →
   Batching.payload_size rs ≤ Batching.batchSize bl →
   Batching.batchLoop bl (map Batching.Log rs ++ [Batching.Tick]) Batching.batcher_init =
     Some {| Batching.logBatch := Batching.NewSumoLogBatch;
             Batching.logBatchQueue := [rs];
             Batching.queueClosed := false;
             Batching.handedOff := [rs];
             Batching.logged := [] |}
   ∧
   Batching.batchLogs bl (map Batching.Log rs) =
     Some {| Batching.logBatch :=
               {| Batching.logs := rs; Batching.sizeBytes := Batching.payload_size rs |};
             Batching.logBatchQueue := [rs];
             Batching.queueClosed := true;
             Batching.handedOff := [rs];
             Batching.logged := [] |})
  ∧
  (GoInt.len rs < Driver.batchSize dl →
   GoInt.len rs + Driver.batchSize dl ≤ GoInt.max_int →
   let flushed :=
     let '(eff, err) := Driver.makePostRequest dl rs (answers 0%nat) in
     DriverLoop.Done
       {| DriverLoop.logs := match err with Some _ => rs | None => [] end;
          DriverLoop.made := length eff;
          DriverLoop.calls :=
            [{| DriverLoop.chunk := rs; DriverLoop.requests := eff;
                DriverLoop.result := err |}] |} in
   DriverLoop.queueLoop dl answers (map DriverLoop.Log rs ++ [DriverLoop.Tick])
     DriverLoop.state_init = flushed
   ∧
   DriverLoop.queueLogsForSending dl answers (map DriverLoop.Log rs) = flushed).
Proof.
  intros Hne. split.
  - intros Hcap Hmax Hsum. by apply batchLogs_flush_within_threshold.
  - intros Hlen Hmax. by apply queueLoop_flush_below_batch.
Qed.

Lemma single_flush_one_batch_witness :
  let rs := [record_of_size 100 "a"%byte; record_of_size 100 "b"%byte] in
  (Batching.handedOff <$>
     Batching.batchLoop sample_logger (map Batching.Log rs ++ [Batching.Tick])
       Batching.batcher_init = Some [rs]
   ∧ Batching.handedOff <$> Batching.batchLogs sample_logger (map Batching.Log rs)
     = Some [rs])
  ∧
  (chunks_of (@DriverLoop.queueLoop sample_runtime sample_driver_logger (λ _, answer_200)
                (map DriverLoop.Log rs ++ [DriverLoop.Tick]) DriverLoop.state_init) = [rs]
   ∧ chunks_of (@DriverLoop.queueLogsForSending sample_runtime sample_driver_logger
                  (λ _, answer_200) (map DriverLoop.Log rs)) = [rs]).
Proof.
  intros rs.
  destruct (@single_flush_one_batch sample_runtime sample_logger sample_driver_logger
              (λ _, answer_200) rs) as [Hbytes Hcount]; [discriminate|].
  split.
  - destruct Hbytes as [Htick Hclose].
    + simpl. lia.
    + vm_compute. discriminate.
    + vm_compute. discriminate.
    + rewrite Htick, Hclose. split; reflexivity.
  - destruct Hcount as [Htick Hclose].
    + reflexivity.
    + vm_compute. discriminate.
    + rewrite Htick, Hclose.
      destruct (@Driver.makePostRequest sample_runtime sample_driver_logger rs answer_200);
        split; reflexivity.
Defined.

(** In [src/driver.go] a cumulative payload size under the batch size
    does not keep the records in one batch: with a batch size of two,
    three records of one byte in all are flushed as two batches, the
    first as soon as the second record arrives, whether the last flush
    is a tick or the closing of the record queue. *)
Lemma queueLogsForSending_splits_under_byte_size :
  one_byte_records ≠ [] ∧
  Batching.payload_size one_byte_records < Driver.batchSize two_record_logger ∧
  chunks_of (@DriverLoop.queueLoop sample_runtime two_record_logger (λ _, answer_200)
               (map DriverLoop.Log one_byte_records ++ [DriverLoop.Tick])
               DriverLoop.state_init)
    = [[record_of_size 1 "a"; record_of_size 0 "b"]; [record_of_size 0 "c"]]%byte ∧
  chunks_of (@DriverLoop.queueLogsForSending sample_runtime two_record_logger
               (λ _, answer_200) (map DriverLoop.Log one_byte_records))
    = [[record_of_size 1 "a"; record_of_size 0 "b"]; [record_of_size 0 "c"]]%byte.
Proof.
  split_and!; [discriminate | reflexivity | vm_compute; reflexivity..].
Qed.
